(** * PFVisualizer: the sparse world map, the worker-side batching map
      and the page-side coordinator, embedded from [WorldMap.js] and the
      page script.

    Conventions of the embedding.
    - Coordinates are integers ([Z]).
    - A cell is one of the seven values of [CELL_TYPES]; the colour string
      of each is kept, because the source keys its [SOLID_CELL_TYPES] and
      [PERMANENT_CELL_TYPES] objects by colour and compares cells by
      colour.
    - A JavaScript [Map] is an insertion-ordered sequence of entries with
      unique keys: [set] overwrites an existing key in place and appends a
      new key at the end; iteration follows that order.
    - [postMessage] appends to an explicit outbox carried in the state.
    - Canvas drawing, [pos] and the drawing scale are left out. *)

From Stdlib Require Import ZArith Floats.
From stdpp Require Import base list strings gmap.

Local Open Scope Z_scope.

(** ** JavaScript [Map] with integer keys *)

Module JsMap.

Definition t (V : Type) : Type := list (Z * V).

Definition empty {V : Type} : t V := [].

Fixpoint get {V : Type} (k : Z) (m : t V) : option V :=
  match m with
  | [] => None
  | (k', v) :: rest => if Z.eqb k k' then Some v else get k rest
  end.

Definition has {V : Type} (k : Z) (m : t V) : bool :=
  match get k m with Some _ => true | None => false end.

Fixpoint set {V : Type} (k : Z) (v : V) (m : t V) : t V :=
  match m with
  | [] => [(k, v)]
  | (k', v') :: rest =>
      if Z.eqb k k' then (k, v) :: rest else (k', v') :: set k v rest
  end.

Definition keys {V : Type} (m : t V) : list Z := List.map fst m.

(** The keys of a [Map] are pairwise distinct. *)
Definition wf {V : Type} (m : t V) : Prop := NoDup (keys m).

End JsMap.

(** ** Cell types *)

Inductive CellType : Type :=
| WALL | EMPTY | START | GOAL | CALCULATING | CALCULATED | PATH.

Definition CELL_TYPES (c : CellType) : string :=
  match c with
  | WALL => "#889f9f"
  | EMPTY => "#0000"
  | START => "#f00"
  | GOAL => "#0f0"
  | CALCULATING => "#00f"
  | CALCULATED => "#777"
  | PATH => "#dd0"
  end.

Definition SOLID_CELL_TYPES : gmap string bool :=
  <[CELL_TYPES WALL := true]> ∅.

Definition PERMANENT_CELL_TYPES : gmap string bool :=
  <[CELL_TYPES WALL := true]>
    (<[CELL_TYPES GOAL := true]>
       (<[CELL_TYPES START := true]> ∅)).

(** Truthiness of [table[cell]] for a table whose own entries are booleans. *)
Definition truthy (table : gmap string bool) (c : CellType) : bool :=
  match table !! CELL_TYPES c with
  | Some b => b
  | None => false
  end.

(** [a !== b] on cells, which the source compares as colour strings. *)
Definition cell_neq (a b : CellType) : bool :=
  negb (String.eqb (CELL_TYPES a) (CELL_TYPES b)).

(** [UMath.Vec2] of the canvas library: a pair of coordinates, added
    componentwise. *)
Module Vec2.
Record t : Type := mk { x : Z; y : Z }.
Definition add (a b : t) : t := mk (x a + x b) (y a + y b).
End Vec2.

(** An entry of a flattened cell array ([changedCells], [cellQueue], the
    payload of a [map_add_cells] message). *)
Inductive JsVal : Type :=
| JsCell (c : CellType)
| JsNum (n : Z).

(** [for (let i = start; i < start + count; i++) body(i)] *)
Fixpoint for_loop {S : Type} (start : Z) (count : nat)
    (body : Z -> S -> S) (s : S) : S :=
  match count with
  | O => s
  | Datatypes.S n => for_loop (start + 1) n body (body start s)
  end.

(** ** class WorldMap *)

Module WorldMap.

Record t : Type := mk {
  size : Vec2.t;
  map : JsMap.t (JsMap.t CellType);
  hasBoundary : bool;
  showBounds : bool;
  (** [None] is [null]; [Some d] is a buffer canvas whose [isDirty] is [d]. *)
  internalFrameBuffer : option bool;
  changedCells : list JsVal
}.

(** [new WorldMap(x, y, w, h, hasBoundary, showBounds, createInternalBuffer)];
    [in_document] says whether [document] is defined (it is not in a
    worker).  A new buffer canvas is taken to be clean. *)
Definition constructor (in_document : bool) (w h : Z)
    (hasBoundary showBounds createInternalBuffer : bool) : t :=
  mk (Vec2.mk w h) JsMap.empty hasBoundary showBounds
     (if negb in_document || negb createInternalBuffer then None
      else Some false)
     [].

Definition outOfBounds (w : t) (x y : Z) : bool :=
  (x <? 0) || (x >=? Vec2.x (size w)) || (y <? 0) || (y >=? Vec2.y (size w)).

Definition getCell (w : t) (x y : Z) : CellType :=
  if hasBoundary w && outOfBounds w x y then WALL
  else
    match (if JsMap.has x (map w)
           then match JsMap.get x (map w) with
                | Some col =>
                    if JsMap.has y col then JsMap.get y col else None
                | None => None
                end
           else None) with
    | Some cell => cell
    | None => EMPTY
    end.

Definition clearMap (w : t) : t :=
  mk (size w) JsMap.empty (hasBoundary w) (showBounds w)
     (match internalFrameBuffer w with
      | Some _ => Some true
      | None => None
      end)
     (changedCells w).

Definition putCell (cell : CellType) (x y : Z) (w : t) : CellType * t :=
  let selectedCell := getCell w x y in
  if truthy PERMANENT_CELL_TYPES selectedCell then (selectedCell, w)
  else
    let m1 := if negb (JsMap.has x (map w))
              then JsMap.set x JsMap.empty (map w) else map w in
    let m2 := match JsMap.get x m1 with
              | Some col => JsMap.set x (JsMap.set y cell col) m1
              | None => m1
              end in
    (cell,
     mk (size w) m2 (hasBoundary w) (showBounds w) (internalFrameBuffer w)
        (match internalFrameBuffer w with
         | Some _ => changedCells w ++ [JsCell cell; JsNum x; JsNum y]
         | None => changedCells w
         end)).

(** [hollowRect] calls [this.putCell], which a subclass may override:
    the write is a parameter. *)
Definition hollowRect_with {S : Type} (put : CellType -> Z -> Z -> S -> S)
    (cell : CellType) (x y w h : Z) (s : S) : S :=
  for_loop 0 (Z.to_nat w)
    (fun relX s =>
       if (relX =? 0) || (relX =? w - 1) then
         for_loop 0 (Z.to_nat h)
           (fun relY s => put cell (x + relX) (y + relY) s) s
       else
         put cell (x + relX) (y + h - 1) (put cell (x + relX) y s))
    s.

Definition hollowRect (cell : CellType) (x y w h : Z) (wm : t) : t :=
  hollowRect_with (fun c x y s => snd (putCell c x y s)) cell x y w h wm.

Definition NodePair : Type := Vec2.t * CellType.

Definition mapToNodePairArray (ignoreEmptyCells : bool) (w : t)
    : list NodePair :=
  List.flat_map
    (fun '(x, col) =>
       List.flat_map
         (fun '(y, cell) =>
            if negb ignoreEmptyCells || cell_neq cell EMPTY
            then [(Vec2.mk x y, cell)] else [])
         col)
    (map w).

Definition isCellType (cell : CellType) (x y : Z) (w : t) : bool :=
  negb (cell_neq (getCell w x y) cell).

Definition isCellSolid (w : t) (x y : Z) : bool :=
  if truthy SOLID_CELL_TYPES (getCell w x y) then true else false.

Definition getNeighbours (w : t) (x y : Z) (diagonals : bool)
    : list Vec2.t :=
  let origin := Vec2.mk x y in
  let possibleNeighbours :=
    [ Vec2.add origin (Vec2.mk 1 0);
      Vec2.add origin (Vec2.mk (-1) 0);
      Vec2.add origin (Vec2.mk 0 1);
      Vec2.add origin (Vec2.mk 0 (-1)) ] in
  let possibleNeighbours :=
    if diagonals then
      possibleNeighbours
        ++ [Vec2.add origin (Vec2.mk 1 0)]
        ++ [Vec2.add origin (Vec2.mk (-1) 0)]
        ++ [Vec2.add origin (Vec2.mk 0 1)]
        ++ [Vec2.add origin (Vec2.mk 0 (-1))]
    else possibleNeighbours in
  List.filter
    (fun neighbour =>
       negb (isCellSolid w (Vec2.x neighbour) (Vec2.y neighbour)))
    possibleNeighbours.

(** Where a node pair is painted: the canvas given to [draw] or the
    internal frame buffer. *)
Inductive DrawTarget : Type := onto_canvas | onto_buffer.

(** The calls [draw] makes on the canvas side: [drawNodePair] of the
    utilities, and [drawImage] of the buffer onto the canvas. *)
Inductive DrawCall : Type :=
| drawNodePair (target : DrawTarget) (nodePair : NodePair)
| drawImage.

(** The local [drawMap] of [draw], as the calls it makes, in order. *)
Definition drawMap (target : DrawTarget) (w : t) : list DrawCall :=
  if hasBoundary w then
    let offset := if showBounds w then 1 else 0 in
    for_loop (0 - offset)
      (Z.to_nat (Vec2.x (size w) + offset - (0 - offset)))
      (fun x calls =>
         for_loop (0 - offset)
           (Z.to_nat (Vec2.y (size w) + offset - (0 - offset)))
           (fun y calls =>
              let cell := getCell w x y in
              if cell_neq cell EMPTY
              then calls ++ [drawNodePair target (Vec2.mk x y, cell)]
              else calls)
           calls)
      []
  else
    List.map (drawNodePair target) (mapToNodePairArray true w).

(** The loop of [draw] over [changedCells], three entries at a time.
    [None] when the array is not a sequence of [(cell, x, y)] triples,
    which is outside this model. *)
Fixpoint drawChangedCells (cells : list JsVal) : option (list DrawCall) :=
  match cells with
  | [] => Some []
  | JsCell c :: JsNum x :: JsNum y :: rest =>
      match drawChangedCells rest with
      | Some calls =>
          Some (drawNodePair onto_buffer (Vec2.mk x y, c) :: calls)
      | None => None
      end
  | _ => None
  end.

(** [draw(canvas, scale)]: the calls made and the map afterwards. *)
Definition draw (w : t) : option (list DrawCall * t) :=
  match internalFrameBuffer w with
  | None => Some (drawMap onto_canvas w, w)
  | Some isDirty =>
      match (if isDirty then Some (drawMap onto_buffer w)
             else drawChangedCells (changedCells w)) with
      | Some calls =>
          Some (calls ++ [drawImage],
                mk (size w) (map w) (hasBoundary w) (showBounds w)
                   (Some false) [])
      | None => None
      end
  end.

End WorldMap.

(** ** Messages posted by the worker *)

Inductive WorkerMessage : Type :=
| map_add_cells (args : list JsVal)
| map_reset
| lock_gen
| unlock_gen.

(** ** class WorkerWorldMap extends WorldMap *)

Module WorkerWorldMap.

Record t : Type := mk {
  base : WorldMap.t;
  (** what [workerGlobal.postMessage] has been given, oldest first *)
  posted : list WorkerMessage;
  cellQueue : list JsVal;
  alwaysUpdate : bool;
  maxCellQueue : Z
}.

Definition constructor (w h : Z) (hasBoundary alwaysUpdate : bool)
    (maxCellQueue : Z) : t :=
  mk (WorldMap.constructor false w h hasBoundary false false)
     [] [] alwaysUpdate maxCellQueue.

Definition postMessage (msg : WorkerMessage) (w : t) : t :=
  mk (base w) (posted w ++ [msg]) (cellQueue w)
     (alwaysUpdate w) (maxCellQueue w).

Definition clearMap (w : t) : t :=
  postMessage map_reset
    (mk (WorldMap.clearMap (base w)) (posted w) (cellQueue w)
        (alwaysUpdate w) (maxCellQueue w)).

Definition sendCellQueue (w : t) : t :=
  let msg := map_add_cells (cellQueue w) in
  let w := postMessage msg w in
  mk (base w) (posted w) [] (alwaysUpdate w) (maxCellQueue w).

Definition putCell (cellType : CellType) (x y : Z) (w : t)
    : CellType * t :=
  let '(addedCell, b) := WorldMap.putCell cellType x y (base w) in
  let w := mk b (posted w) (cellQueue w)
              (alwaysUpdate w) (maxCellQueue w) in
  let w :=
    if alwaysUpdate w then
      postMessage (map_add_cells [JsCell cellType; JsNum x; JsNum y]) w
    else
      let w := mk (base w) (posted w)
                  (cellQueue w ++ [JsCell cellType; JsNum x; JsNum y])
                  (alwaysUpdate w) (maxCellQueue w) in
      if Z.of_nat (length (cellQueue w)) >=? maxCellQueue w
      then sendCellQueue w else w in
  (addedCell, w).

(** The inherited [hollowRect], writing through the override. *)
Definition hollowRect (cell : CellType) (x y w h : Z) (wm : t) : t :=
  WorldMap.hollowRect_with (fun c x y s => snd (putCell c x y s))
    cell x y w h wm.

End WorkerWorldMap.

(** ** The page script *)

Module Script.

Definition MIN_WORLD_SIZE : Z := 8.
Definition MAX_WORLD_SIZE : Z := 400.
Definition MAX_ACTION_TIME : float := 100%float.
Definition MAX_CELL_QUEUE : Z := 50.

(** [currentAlgorithm] starts as the first entry of
    [availableAlgorithms] and is an index once a selection was made. *)
Inductive AlgorithmRef : Type :=
| first_algorithm
| algorithm_index (i : nat).

(** The array posted to the path generator. *)
Record StartRequest : Type := mkStart {
  req_width : Z;
  req_height : Z;
  req_hasBoundary : bool;
  req_actionDelay : option float;
  req_maxCellQueue : Z;
  req_algorithm : AlgorithmRef
}.

(** The variables of the script that the coordinator reads or writes;
    [gridEnabled], [restartMessage] and [SCALE] only steer drawing. *)
Record t : Type := mk {
  (** [None] is [undefined]: no delay *)
  actionDelay : option float;
  WORLD_MAP : WorldMap.t;
  currentAlgorithm : AlgorithmRef;
  isPathGenLocked : bool;
  (** what [pathGenerator.postMessage] has been given, oldest first *)
  toPathGenerator : list StartRequest
}.

Definition initial : t :=
  mk (Some 25%float)
     (WorldMap.constructor true 30 15 true true true)
     first_algorithm false [].

Definition set_WORLD_MAP (w : WorldMap.t) (s : t) : t :=
  mk (actionDelay s) w (currentAlgorithm s) (isPathGenLocked s)
     (toPathGenerator s).

Definition set_isPathGenLocked (b : bool) (s : t) : t :=
  mk (actionDelay s) (WORLD_MAP s) (currentAlgorithm s) b
     (toPathGenerator s).

Definition set_actionDelay (d : option float) (s : t) : t :=
  mk d (WORLD_MAP s) (currentAlgorithm s) (isPathGenLocked s)
     (toPathGenerator s).

(** The loop of the [map_add_cells] case: the entries are read three at
    a time as [(cell, x, y)].  [None] when the array is not a sequence
    of such triples, which is outside this model. *)
Fixpoint add_cells (args : list JsVal) (w : WorldMap.t)
    : option WorldMap.t :=
  match args with
  | [] => Some w
  | JsCell c :: JsNum x :: JsNum y :: rest =>
      add_cells rest (snd (WorldMap.putCell c x y w))
  | _ => None
  end.

(** The [message] listener of [pathGenerator]. *)
Definition onmessage (msg : WorkerMessage) (s : t) : option t :=
  match msg with
  | map_add_cells args =>
      match add_cells args (WORLD_MAP s) with
      | Some w => Some (set_WORLD_MAP w s)
      | None => None
      end
  | map_reset => Some (set_WORLD_MAP (WorldMap.clearMap (WORLD_MAP s)) s)
  | lock_gen => Some (set_isPathGenLocked true s)
  | unlock_gen => Some (set_isPathGenLocked false s)
  end.

Definition generatePath (s : t) : t :=
  if isPathGenLocked s then s
  else
    mk (actionDelay s) (WORLD_MAP s) (currentAlgorithm s)
       (isPathGenLocked s)
       (toPathGenerator s ++
          [mkStart (Vec2.x (WorldMap.size (WORLD_MAP s)))
                   (Vec2.y (WorldMap.size (WORLD_MAP s)))
                   (WorldMap.hasBoundary (WORLD_MAP s))
                   (actionDelay s) MAX_CELL_QUEUE (currentAlgorithm s)]).

Inductive Axis : Type := axis_x | axis_y.

Definition set_size_axis (axis : Axis) (v : Z) (w : WorldMap.t)
    : WorldMap.t :=
  WorldMap.mk
    (match axis with
     | axis_x => Vec2.mk v (Vec2.y (WorldMap.size w))
     | axis_y => Vec2.mk (Vec2.x (WorldMap.size w)) v
     end)
    (WorldMap.map w) (WorldMap.hasBoundary w) (WorldMap.showBounds w)
    (WorldMap.internalFrameBuffer w) (WorldMap.changedCells w).

(** [newValue] is the result of [parseInt(element.value)]; [None] is
    [NaN].  Clearing the input element is not modelled. *)
Definition changeWorldSize (newValue : option Z) (axis : Axis) (s : t)
    : t :=
  match newValue with
  | None => s
  | Some v =>
      if isPathGenLocked s || (v <? MIN_WORLD_SIZE) || (v >? MAX_WORLD_SIZE)
      then s
      else set_WORLD_MAP
             (set_size_axis axis v (WorldMap.clearMap (WORLD_MAP s))) s
  end.

(** [newDelay] is the result of [parseFloat(element.value)].  The input
    element and its placeholder are not modelled. *)
Definition changeActionDelay (newDelay : float) (s : t) : t :=
  if isPathGenLocked s || PrimFloat.is_nan newDelay
     || PrimFloat.ltb MAX_ACTION_TIME newDelay
  then s
  else if PrimFloat.leb newDelay 0%float
  then set_actionDelay None s
  else set_actionDelay (Some newDelay) s.

(** [SCALE] and the position of the world on the canvas. *)
Record View : Type := mkView {
  SCALE : Z;
  pos : Vec2.t
}.

(** [recalcScale()], for a window of [innerWidth] by [innerHeight]
    pixels. *)
Definition recalcScale (innerWidth innerHeight : Z) (w : WorldMap.t)
    : View :=
  let scale :=
    Z.min (innerHeight / Vec2.y (WorldMap.size w))
          (innerWidth / Vec2.x (WorldMap.size w)) in
  mkView scale
    (Vec2.mk ((innerWidth - Vec2.x (WorldMap.size w) * scale) / 2)
             ((innerHeight - Vec2.y (WorldMap.size w) * scale) / 2)).

(** The loop of [changeAlgorithm]: the first index from [i] on whose
    [longName] is [value]. *)
Fixpoint find_longName (value : string) (i : nat) (longNames : list string)
    : option nat :=
  match longNames with
  | [] => None
  | name :: rest =>
      if String.eqb name value then Some i
      else find_longName value (Datatypes.S i) rest
  end.

(** [changeAlgorithm(element)]; [availableAlgorithms] is given by the
    [longName] of each entry, [value] is [element.value]. *)
Definition changeAlgorithm (availableAlgorithms : list string)
    (value : string) (s : t) : t :=
  match find_longName value 0 availableAlgorithms with
  | Some i =>
      mk (actionDelay s) (WORLD_MAP s) (algorithm_index i)
         (isPathGenLocked s) (toPathGenerator s)
  | None => s
  end.

End Script.

(** * Notions used to state the properties *)

(** Permanent cells: [WALL], [START] and [GOAL], the cells that
    [PERMANENT_CELL_TYPES] marks ([truthy_PERMANENT]). *)
Definition Permanent (c : CellType) : Prop := c = WALL ∨ c = START ∨ c = GOAL.

#[global] Instance CellType_eq_dec : EqDecision CellType.
Proof. solve_decision. Defined.

#[global] Instance Permanent_dec c : Decision (Permanent c).
Proof. unfold Permanent. apply _. Defined.

(** Solid cells: [WALL] alone, the cell that [SOLID_CELL_TYPES] marks
    ([truthy_SOLID]). *)
Definition Solid (c : CellType) : Prop := c = WALL.

(** What the nested [Map] records for a coordinate, if anything. *)
Definition stored (w : WorldMap.t) (x y : Z) : option CellType :=
  match JsMap.get x (WorldMap.map w) with
  | Some col => JsMap.get y col
  | None => None
  end.

(** The coordinate lies inside [[0,width) x [0,height)]. *)
Definition InBounds (w : WorldMap.t) (x y : Z) : Prop :=
  0 ≤ x < Vec2.x (WorldMap.size w) ∧ 0 ≤ y < Vec2.y (WorldMap.size w).

(** The writes a caller can issue on a map. *)
Inductive Write : Type :=
| Put (cell : CellType) (x y : Z)
| HollowRect (cell : CellType) (x y w h : Z).

Definition do_write (op : Write) (wm : WorldMap.t) : WorldMap.t :=
  match op with
  | Put cell x y => (WorldMap.putCell cell x y wm).2
  | HollowRect cell x y w h => WorldMap.hollowRect cell x y w h wm
  end.

Definition do_writes (ops : list Write) (wm : WorldMap.t) : WorldMap.t :=
  fold_left (fun s op => do_write op s) ops wm.

(** A small bounded world used by the examples: 5 x 5, [START] at (1,1)
    and a [CALCULATING] cell at (2,3). *)
Definition example_world : WorldMap.t :=
  do_writes [Put START 1 1; Put CALCULATING 2 3]
    (WorldMap.constructor true 5 5 true true true).

Definition triple (c : CellType) (x y : Z) : list JsVal :=
  [JsCell c; JsNum x; JsNum y].

Definition worker_do_write (op : Write) (p : WorkerWorldMap.t)
    : WorkerWorldMap.t :=
  match op with
  | Put cell x y => (WorkerWorldMap.putCell cell x y p).2
  | HollowRect cell x y w h => WorkerWorldMap.hollowRect cell x y w h p
  end.

Definition worker_do_writes (ops : list Write) (p : WorkerWorldMap.t)
    : WorkerWorldMap.t :=
  fold_left (fun s op => worker_do_write op s) ops p.

(** A 5 x 5 bounded worker map in threshold mode whose cell (1,1) is
    [START], with nothing pending, and its always-update twin. *)
Definition example_worker : WorkerWorldMap.t :=
  WorkerWorldMap.mk
    (do_writes [Put START 1 1] (WorldMap.constructor false 5 5 true false false))
    [] [] false 50.

Definition example_worker_always : WorkerWorldMap.t :=
  WorkerWorldMap.mk
    (do_writes [Put START 1 1] (WorldMap.constructor false 5 5 true false false))
    [] [] true 50.

(** Two maps that agree on everything [getCell] and [putCell] look at. *)
Definition Mirror (a b : WorldMap.t) : Prop :=
  WorldMap.map a = WorldMap.map b ∧
  WorldMap.size a = WorldMap.size b ∧
  WorldMap.hasBoundary a = WorldMap.hasBoundary b.

(** The payloads of the [map_add_cells] messages, in posting order. *)
Definition cells_added_batches (msgs : list WorkerMessage)
    : list (list JsVal) :=
  List.flat_map
    (fun msg => match msg with map_add_cells args => [args] | _ => [] end)
    msgs.

(** The listener's loop run over each batch in turn. *)
Definition replay (batches : list (list JsVal)) (w : WorldMap.t)
    : option WorldMap.t :=
  fold_left
    (fun acc args =>
       match acc with Some s => Script.add_cells args s | None => None end)
    batches (Some w).

(** Modelled from the spec: the driver of a run is in [pathGen.js], which
    is not among the sources.  Per the specification a run announces the
    lock, resets the producer-side map (which posts the reset signal),
    lets the strategy write cells, forces a final flush of the pending
    batch on completion and announces the unlock. *)
Definition run (ops : list Write) (p : WorkerWorldMap.t)
    : WorkerWorldMap.t :=
  WorkerWorldMap.postMessage unlock_gen
    (WorkerWorldMap.sendCellQueue
       (worker_do_writes ops
          (WorkerWorldMap.clearMap
             (WorkerWorldMap.postMessage lock_gen p)))).

(** The messages posted after [pre], replayed on [mirrored] and followed
    by the pending batch, rebuild the producer's map. *)
Definition in_step (pre : list WorkerMessage) (mirrored : WorldMap.t)
    (p : WorkerWorldMap.t) : Prop :=
  ∃ new seen cw,
    WorkerWorldMap.posted p = pre ++ new ∧
    replay (cells_added_batches new) mirrored = Some seen ∧
    Script.add_cells (WorkerWorldMap.cellQueue p) seen = Some cw ∧
    Mirror cw (WorkerWorldMap.base p) ∧
    (WorkerWorldMap.alwaysUpdate p = true → WorkerWorldMap.cellQueue p = []).

(** What can happen on the page. *)
Inductive PageEvent : Type :=
| RestartKey
| Received (msg : WorkerMessage)
| WorldSizeInput (newValue : option Z) (axis : Script.Axis)
| ActionDelayInput (newDelay : float).

Definition handle (ev : PageEvent) (s : Script.t) : option Script.t :=
  match ev with
  | RestartKey => Some (Script.generatePath s)
  | Received msg => Script.onmessage msg s
  | WorldSizeInput v axis => Some (Script.changeWorldSize v axis s)
  | ActionDelayInput d => Some (Script.changeActionDelay d s)
  end.

Definition handle_all (evs : list PageEvent) (s : Script.t)
    : option Script.t :=
  fold_left
    (fun acc ev => match acc with Some s => handle ev s | None => None end)
    evs (Some s).

(** A page that has received [lock_gen]. *)
Definition locked_page : Script.t := Script.set_isPathGenLocked true Script.initial.

(** Every [Map] of the nested store has pairwise distinct keys. *)
Definition WellFormed (w : WorldMap.t) : Prop :=
  JsMap.wf (WorldMap.map w) ∧
  ∀ x col, (x, col) ∈ WorldMap.map w → JsMap.wf col.

(** Each pair of a snapshot written back through [putCell]. *)
Definition replay_pairs (pairs : list WorldMap.NodePair) (w : WorldMap.t)
    : WorldMap.t :=
  fold_left
    (fun s '(pos, cell) =>
       (WorldMap.putCell cell (Vec2.x pos) (Vec2.y pos) s).2)
    pairs w.

Definition worker_puts (ps : list (CellType * Z * Z)) (p : WorkerWorldMap.t)
    : WorkerWorldMap.t :=
  fold_left (fun s '(c, x, y) => (WorkerWorldMap.putCell c x y s).2) ps p.

Definition is_batch_of (cells : Z) (msg : WorkerMessage) : Prop :=
  ∃ args, msg = map_add_cells args ∧ Z.of_nat (length args) = 3 * cells.

(** ** Notions for the further properties *)

(** The indices [for_loop start count] goes through. *)
Fixpoint loop_range (start : Z) (count : nat) : list Z :=
  match count with
  | O => []
  | Datatypes.S n => start :: loop_range (start + 1) n
  end.

(** The coordinates [hollowRect] writes, in the order it writes them. *)
Definition hollowRect_cells (x y w h : Z) : list (Z * Z) :=
  WorldMap.hollowRect_with (fun _ a b cells => cells ++ [(a, b)])
    WALL x y w h [].


(** [(px, py)] is next to [(x, y)] along one axis. *)
Definition Adjacent (x y px py : Z) : Prop :=
  (px = x + 1 ∧ py = y) ∨ (px = x - 1 ∧ py = y) ∨
  (px = x ∧ py = y + 1) ∨ (px = x ∧ py = y - 1).

(** The triples of a write, in the order they are written. *)
Definition write_triples (op : Write) : list JsVal :=
  match op with
  | Put cell x y => triple cell x y
  | HollowRect cell x y w h =>
      List.flat_map (fun '(a, b) => triple cell a b) (hollowRect_cells x y w h)
  end.

(** The colour last painted at [(x, y)] by a sequence of calls, if any. *)
Fixpoint last_painted (calls : list WorldMap.DrawCall) (x y : Z)
    : option CellType :=
  match calls with
  | [] => None
  | WorldMap.drawNodePair _ (pos, c) :: rest =>
      match last_painted rest x y with
      | Some c' => Some c'
      | None =>
          if (Vec2.x pos =? x) && (Vec2.y pos =? y) then Some c else None
      end
  | WorldMap.drawImage :: rest => last_painted rest x y
  end.

(** A delay the page can hold: none, or a number above 0 and not above
    [MAX_ACTION_TIME]. *)
Definition valid_delay (d : option float) : bool :=
  match d with
  | None => true
  | Some v =>
      negb (PrimFloat.is_nan v) && negb (PrimFloat.leb v 0%float)
      && negb (PrimFloat.ltb Script.MAX_ACTION_TIME v)
  end.

(** Nothing is recorded outside the rectangle of a map with a
    boundary. *)
Definition StoredInBounds (w : WorldMap.t) : Prop :=
  ∀ x y c,
    stored w x y = Some c → WorldMap.hasBoundary w = false ∨ InBounds w x y.

(** Everything a worker has reported or still holds for reporting: the
    payloads of its [map_add_cells] messages, in posting order, then the
    pending batch. *)
Definition reported (p : WorkerWorldMap.t) : list JsVal :=
  concat (cells_added_batches (WorkerWorldMap.posted p))
    ++ WorkerWorldMap.cellQueue p.

(** The request [generatePath] posts from a page state. *)
Definition start_request (s : Script.t) : Script.StartRequest :=
  Script.mkStart (Vec2.x (WorldMap.size (Script.WORLD_MAP s)))
    (Vec2.y (WorldMap.size (Script.WORLD_MAP s)))
    (WorldMap.hasBoundary (Script.WORLD_MAP s))
    (Script.actionDelay s) Script.MAX_CELL_QUEUE (Script.currentAlgorithm s).

(** Settings of the page that the size and delay commands keep. *)
Definition page_settings_ok (s : Script.t) : Prop :=
  Script.MIN_WORLD_SIZE ≤ Vec2.x (WorldMap.size (Script.WORLD_MAP s))
    ≤ Script.MAX_WORLD_SIZE ∧
  Script.MIN_WORLD_SIZE ≤ Vec2.y (WorldMap.size (Script.WORLD_MAP s))
    ≤ Script.MAX_WORLD_SIZE ∧
  WorldMap.hasBoundary (Script.WORLD_MAP s) = true ∧
  valid_delay (Script.actionDelay s) = true.

(** A start request whose settings are in range. *)
Definition request_ok (r : Script.StartRequest) : Prop :=
  Script.MIN_WORLD_SIZE ≤ Script.req_width r ≤ Script.MAX_WORLD_SIZE ∧
  Script.MIN_WORLD_SIZE ≤ Script.req_height r ≤ Script.MAX_WORLD_SIZE ∧
  Script.req_hasBoundary r = true ∧
  valid_delay (Script.req_actionDelay r) = true ∧
  Script.req_maxCellQueue r = Script.MAX_CELL_QUEUE.

(** * Properties *)

(** ** [JsMap] *)

Section JsMapFacts.
Context {V : Type}.
Implicit Types (m : JsMap.t V) (k : Z) (v : V).

Lemma JsMap_get_set_eq m k v : JsMap.get k (JsMap.set k v m) = Some v.
Proof.
  induction m as [|[k' v'] m IH]; simpl.
  - by rewrite Z.eqb_refl.
  - destruct (Z.eqb_spec k k') as [->|Hne]; simpl.
    + by rewrite Z.eqb_refl.
    + destruct (Z.eqb_spec k k'); [done|apply IH].
Qed.

Lemma JsMap_get_set_ne m k k' v :
  k' ≠ k → JsMap.get k' (JsMap.set k v m) = JsMap.get k' m.
Proof.
  intros Hne. induction m as [|[k0 v0] m IH]; simpl.
  - destruct (Z.eqb_spec k' k); [done|reflexivity].
  - destruct (Z.eqb_spec k k0) as [->|Hk]; simpl.
    + destruct (Z.eqb_spec k' k0); [done|reflexivity].
    + destruct (Z.eqb_spec k' k0); [reflexivity|apply IH].
Qed.

Lemma JsMap_get_set m k k' v :
  JsMap.get k' (JsMap.set k v m)
  = if Z.eqb k' k then Some v else JsMap.get k' m.
Proof.
  destruct (Z.eqb_spec k' k) as [->|Hne].
  - apply JsMap_get_set_eq.
  - by apply JsMap_get_set_ne.
Qed.

Lemma JsMap_get_None_keys m k : JsMap.get k m = None ↔ k ∉ JsMap.keys m.
Proof.
  induction m as [|[k' v'] m IH]; simpl.
  - split; [intros _; apply not_elem_of_nil|done].
  - rewrite not_elem_of_cons. destruct (Z.eqb_spec k k') as [->|Hne].
    + split; [done|]. intros [? _]; done.
    + rewrite IH. tauto.
Qed.

Lemma JsMap_get_Some_elem m k v :
  JsMap.get k m = Some v → (k, v) ∈ m.
Proof.
  induction m as [|[k' v'] m IH]; simpl; [done|].
  destruct (Z.eqb_spec k k') as [->|Hne].
  - intros [= ->]. apply list_elem_of_here.
  - intros H. apply list_elem_of_further, IH, H.
Qed.

Lemma JsMap_elem_get m k v :
  JsMap.wf m → (k, v) ∈ m → JsMap.get k m = Some v.
Proof.
  unfold JsMap.wf, JsMap.keys.
  induction m as [|[k' v'] m IH]; simpl; intros Hwf Hin.
  - by apply elem_of_nil in Hin.
  - apply NoDup_cons in Hwf as [Hnotin Hwf].
    apply elem_of_cons in Hin as [[= -> ->]|Hin].
    + by rewrite Z.eqb_refl.
    + destruct (Z.eqb_spec k k') as [->|Hne]; [|by apply IH].
      exfalso. apply Hnotin.
      change k' with (fst (k', v)). apply list_elem_of_fmap_2, Hin.
Qed.

Lemma JsMap_keys_set m k v :
  JsMap.keys (JsMap.set k v m)
  = if JsMap.has k m then JsMap.keys m else JsMap.keys m ++ [k].
Proof.
  unfold JsMap.has, JsMap.keys.
  induction m as [|[k' v'] m IH]; simpl; [done|].
  destruct (Z.eqb_spec k k') as [->|Hne]; simpl; [done|].
  rewrite IH. by destruct (JsMap.get k m).
Qed.

Lemma JsMap_set_wf m k v : JsMap.wf m → JsMap.wf (JsMap.set k v m).
Proof.
  unfold JsMap.wf. rewrite JsMap_keys_set.
  destruct (JsMap.has k m) eqn:Hhas; [done|].
  intros Hwf. apply NoDup_app. split_and!; [done| |apply NoDup_singleton].
  intros k' Hin ->%list_elem_of_singleton.
  unfold JsMap.has in Hhas.
  destruct (JsMap.get k m) eqn:Hget; [done|].
  by apply JsMap_get_None_keys in Hget.
Qed.

End JsMapFacts.

(** ** Cell classes *)

Lemma truthy_PERMANENT c : truthy PERMANENT_CELL_TYPES c = true ↔ Permanent c.
Proof.
  unfold Permanent.
  destruct c; vm_compute; split; intros H; try done; try tauto;
    destruct H as [H|[H|H]]; discriminate H.
Qed.

Lemma truthy_SOLID c : truthy SOLID_CELL_TYPES c = true ↔ Solid c.
Proof. unfold Solid. destruct c; vm_compute; split; intros H; done. Qed.

Lemma cell_neq_spec a b : cell_neq a b = true ↔ a ≠ b.
Proof. destruct a, b; vm_compute; split; intros H; done. Qed.

Lemma CELL_TYPES_inj a b : CELL_TYPES a = CELL_TYPES b → a = b.
Proof. destruct a, b; simpl; intros H; try reflexivity; discriminate H. Qed.

(** ** The sparse store behind [getCell] and [putCell] *)

Lemma outOfBounds_spec w x y :
  WorldMap.outOfBounds w x y = false ↔ InBounds w x y.
Proof. unfold WorldMap.outOfBounds, InBounds. lia. Qed.

Lemma getCell_stored w x y :
  WorldMap.getCell w x y
  = if WorldMap.hasBoundary w && WorldMap.outOfBounds w x y then WALL
    else match stored w x y with Some c => c | None => EMPTY end.
Proof.
  unfold WorldMap.getCell, stored, JsMap.has.
  destruct (_ && _); [done|].
  destruct (JsMap.get x (WorldMap.map w)) as [col|]; [|done].
  by destruct (JsMap.get y col).
Qed.

Lemma putCell_rejected cell x y w :
  Permanent (WorldMap.getCell w x y) →
  WorldMap.putCell cell x y w = (WorldMap.getCell w x y, w).
Proof.
  intros H%truthy_PERMANENT. unfold WorldMap.putCell. by rewrite H.
Qed.

Lemma putCell_size cell x y w :
  WorldMap.size (WorldMap.putCell cell x y w).2 = WorldMap.size w.
Proof.
  unfold WorldMap.putCell. by destruct (truthy _ _).
Qed.

Lemma putCell_hasBoundary cell x y w :
  WorldMap.hasBoundary (WorldMap.putCell cell x y w).2
  = WorldMap.hasBoundary w.
Proof.
  unfold WorldMap.putCell. by destruct (truthy _ _).
Qed.

Lemma putCell_outOfBounds cell x y w x' y' :
  WorldMap.outOfBounds (WorldMap.putCell cell x y w).2 x' y'
  = WorldMap.outOfBounds w x' y'.
Proof. unfold WorldMap.outOfBounds. by rewrite putCell_size. Qed.

Lemma putCell_accepted_fst cell x y w :
  ¬ Permanent (WorldMap.getCell w x y) →
  (WorldMap.putCell cell x y w).1 = cell.
Proof.
  intros H. unfold WorldMap.putCell.
  destruct (truthy _ _) eqn:E; [|done]. by apply truthy_PERMANENT in E.
Qed.

(** The store after an accepted write: exactly the written coordinate is
    rebound. *)
Lemma putCell_accepted_stored cell x y w x' y' :
  ¬ Permanent (WorldMap.getCell w x y) →
  stored (WorldMap.putCell cell x y w).2 x' y'
  = if (x' =? x) && (y' =? y) then Some cell else stored w x' y'.
Proof.
  intros H. unfold WorldMap.putCell.
  destruct (truthy _ _) eqn:E; [by apply truthy_PERMANENT in E|].
  unfold stored, JsMap.has; simpl.
  destruct (JsMap.get x (WorldMap.map w)) as [col|] eqn:Hx; simpl.
  - rewrite Hx, JsMap_get_set.
    destruct (Z.eqb_spec x' x) as [->|Hne]; simpl; [|done].
    rewrite Hx, JsMap_get_set. by destruct (y' =? y).
  - rewrite JsMap_get_set_eq, !JsMap_get_set.
    destruct (Z.eqb_spec x' x) as [->|Hne]; simpl; [|done].
    rewrite Hx. by destruct (y' =? y).
Qed.

Lemma not_Permanent_in_range w x y :
  ¬ Permanent (WorldMap.getCell w x y) →
  WorldMap.hasBoundary w && WorldMap.outOfBounds w x y = false.
Proof.
  intros H. destruct (_ && _) eqn:E; [|done].
  exfalso. apply H. unfold WorldMap.getCell. rewrite E. by left.
Qed.

(** Reading after a write. *)
Lemma getCell_putCell cell x y w x' y' :
  WorldMap.getCell (WorldMap.putCell cell x y w).2 x' y'
  = if truthy PERMANENT_CELL_TYPES (WorldMap.getCell w x y)
    then WorldMap.getCell w x' y'
    else if (x' =? x) && (y' =? y) then cell
         else WorldMap.getCell w x' y'.
Proof.
  destruct (truthy _ _) eqn:E.
  - apply truthy_PERMANENT in E. by rewrite putCell_rejected.
  - assert (Hnp : ¬ Permanent (WorldMap.getCell w x y)).
    { intros Hp%truthy_PERMANENT. congruence. }
    rewrite !getCell_stored, putCell_hasBoundary, putCell_outOfBounds,
      putCell_accepted_stored by done.
    destruct (Z.eqb_spec x' x) as [->|]; simpl; [|done].
    destruct (Z.eqb_spec y' y) as [->|]; simpl; [|done].
    by rewrite (not_Permanent_in_range _ _ _ Hnp).
Qed.

(** A write never changes what a permanent coordinate reads as. *)
Lemma putCell_keeps_permanent cell x y w x' y' :
  Permanent (WorldMap.getCell w x' y') →
  WorldMap.getCell (WorldMap.putCell cell x y w).2 x' y'
  = WorldMap.getCell w x' y'.
Proof.
  intros Hp. rewrite getCell_putCell.
  destruct (truthy _ _) eqn:E; [done|].
  destruct (Z.eqb_spec x' x) as [->|]; simpl; [|done].
  destruct (Z.eqb_spec y' y) as [->|]; simpl; [|done].
  apply truthy_PERMANENT in Hp. congruence.
Qed.

Lemma for_loop_invariant {S : Type} (P : S → Prop) (body : Z → S → S) :
  (∀ i s, P s → P (body i s)) →
  ∀ count start s, P s → P (for_loop start count body s).
Proof.
  intros Hbody count. induction count as [|n IH]; simpl; [done|].
  intros start s Hs. apply IH, Hbody, Hs.
Qed.

Lemma hollowRect_with_invariant {S : Type} (P : S → Prop)
    (put : CellType → Z → Z → S → S) :
  (∀ c x y s, P s → P (put c x y s)) →
  ∀ cell x y w h s, P s → P (WorldMap.hollowRect_with put cell x y w h s).
Proof.
  intros Hput cell x y w h s Hs. unfold WorldMap.hollowRect_with.
  apply for_loop_invariant; [|done].
  intros relX s' Hs'. destruct (_ || _).
  - apply for_loop_invariant; [|done]. intros; by apply Hput.
  - by apply Hput, Hput.
Qed.

(** ** Sequences of writes *)

Lemma do_write_invariant (P : WorldMap.t → Prop) :
  (∀ c x y s, P s → P (WorldMap.putCell c x y s).2) →
  ∀ op s, P s → P (do_write op s).
Proof.
  intros Hput [cell x y|cell x y w h] s Hs; simpl.
  - by apply Hput.
  - unfold WorldMap.hollowRect.
    by apply (hollowRect_with_invariant P).
Qed.

Lemma do_writes_invariant (P : WorldMap.t → Prop) :
  (∀ c x y s, P s → P (WorldMap.putCell c x y s).2) →
  ∀ ops s, P s → P (do_writes ops s).
Proof.
  intros Hput ops. unfold do_writes.
  induction ops as [|op ops IH]; simpl; [done|].
  intros s Hs. by apply IH, do_write_invariant.
Qed.

Lemma example_world_size : WorldMap.size example_world = Vec2.mk 5 5.
Proof. reflexivity. Qed.

Lemma example_world_outside x y :
  x < 0 ∨ 5 ≤ x ∨ y < 0 ∨ 5 ≤ y → ¬ InBounds example_world x y.
Proof. unfold InBounds. rewrite example_world_size. simpl. lia. Qed.

Lemma example_world_inside x y :
  0 ≤ x < 5 → 0 ≤ y < 5 → InBounds example_world x y.
Proof. unfold InBounds. rewrite example_world_size. simpl. lia. Qed.

(** ** C1: permanent cells *)

(** C1. When the cell read at (x,y) is Permanent (Wall, Start or Goal),
    [putCell] with any state returns the existing state and leaves the
    map as it is; after any further writes, direct or through
    [hollowRect], the coordinate still reads the same state and still
    rejects every write. *)
Theorem putCell_permanent_is_final w x y :
  Permanent (WorldMap.getCell w x y) →
  (∀ cell, WorldMap.putCell cell x y w = (WorldMap.getCell w x y, w)) ∧
  (∀ ops, WorldMap.getCell (do_writes ops w) x y = WorldMap.getCell w x y) ∧
  (∀ ops cell,
     WorldMap.putCell cell x y (do_writes ops w)
     = (WorldMap.getCell w x y, do_writes ops w)).
Proof.
  intros Hp.
  assert (Hkeep : ∀ ops,
    WorldMap.getCell (do_writes ops w) x y = WorldMap.getCell w x y).
  { intros ops.
    apply (do_writes_invariant
             (fun s => WorldMap.getCell s x y = WorldMap.getCell w x y));
      [|done].
    intros c x' y' s Hs. rewrite <- Hs.
    apply putCell_keeps_permanent. by rewrite Hs. }
  split_and!; [|done|].
  - intros cell. by apply putCell_rejected.
  - intros ops cell. rewrite <- (Hkeep ops).
    apply putCell_rejected. by rewrite Hkeep.
Qed.

Lemma putCell_permanent_is_final_witness :
  Permanent (WorldMap.getCell example_world 1 1) ∧
  (∀ ops cell,
     WorldMap.putCell cell 1 1 (do_writes ops example_world)
     = (WorldMap.getCell example_world 1 1, do_writes ops example_world)).
Proof.
  assert (Hp : Permanent (WorldMap.getCell example_world 1 1)).
  { right; left; reflexivity. }
  split; [exact Hp|].
  exact (proj2 (proj2 (putCell_permanent_is_final example_world 1 1 Hp))).
Defined.

(** ** C2: reading *)

(** C2. [getCell] is defined for every pair of integers: on a bounded
    map a coordinate outside the rectangle reads [WALL]; any other
    coordinate reads the recorded state when one is recorded and [EMPTY]
    when none is. *)
Theorem getCell_total w x y :
  (WorldMap.hasBoundary w = true → ¬ InBounds w x y →
   WorldMap.getCell w x y = WALL) ∧
  (WorldMap.hasBoundary w = false ∨ InBounds w x y →
   ∀ c, stored w x y = Some c → WorldMap.getCell w x y = c) ∧
  (WorldMap.hasBoundary w = false ∨ InBounds w x y →
   stored w x y = None → WorldMap.getCell w x y = EMPTY).
Proof.
  rewrite getCell_stored.
  destruct (WorldMap.outOfBounds w x y) eqn:Hout.
  - assert (Hnin : ¬ InBounds w x y).
    { intros Hin%outOfBounds_spec. congruence. }
    split_and!.
    + by intros ->.
    + intros [->|?]; [|done]. by intros c ->.
    + intros [->|?]; [|done]. by intros ->.
  - apply outOfBounds_spec in Hout as Hin.
    rewrite andb_false_r. split_and!; [done| |].
    + by intros _ c ->.
    + by intros _ ->.
Qed.

Lemma getCell_total_witness :
  WorldMap.getCell example_world (-1) 7 = WALL ∧
  WorldMap.getCell example_world 2 3 = CALCULATING ∧
  WorldMap.getCell example_world 4 4 = EMPTY.
Proof.
  split_and!.
  - apply (proj1 (getCell_total example_world (-1) 7)); [reflexivity|].
    apply example_world_outside; lia.
  - apply (proj1 (proj2 (getCell_total example_world 2 3)));
      [right; apply example_world_inside; lia|reflexivity].
  - apply (proj2 (proj2 (getCell_total example_world 4 4)));
      [right; apply example_world_inside; lia|reflexivity].
Defined.

(** ** C10: writes outside a bounded map *)

(** C10. On a bounded map, a coordinate outside the rectangle reads
    [WALL]; [putCell] there returns [WALL] and leaves the map as it is;
    an outside coordinate that is not recorded stays unrecorded through
    any sequence of writes, so none is ever recorded after [clearMap]. *)
Theorem putCell_out_of_bounds w x y :
  WorldMap.hasBoundary w = true → ¬ InBounds w x y →
  WorldMap.getCell w x y = WALL ∧
  (∀ cell, WorldMap.putCell cell x y w = (WALL, w)) ∧
  (∀ ops, stored w x y = None → stored (do_writes ops w) x y = None) ∧
  (∀ ops, stored (do_writes ops (WorldMap.clearMap w)) x y = None).
Proof.
  intros Hb Hout.
  assert (Hwall : ∀ s, WorldMap.hasBoundary s = true →
            WorldMap.size s = WorldMap.size w →
            WorldMap.getCell s x y = WALL).
  { intros s Hbs Hsz. rewrite getCell_stored, Hbs. simpl.
    destruct (WorldMap.outOfBounds s x y) eqn:E; [done|].
    apply outOfBounds_spec in E. exfalso. apply Hout.
    unfold InBounds in *. by rewrite <- Hsz. }
  assert (Hkeep : ∀ w0 ops,
            WorldMap.hasBoundary w0 = true →
            WorldMap.size w0 = WorldMap.size w →
            stored w0 x y = None → stored (do_writes ops w0) x y = None).
  { intros w0 ops Hb0 Hsz0 Hnone.
    apply (do_writes_invariant
             (fun s => WorldMap.hasBoundary s = true ∧
                       WorldMap.size s = WorldMap.size w ∧
                       stored s x y = None)); [|done].
    intros c x' y' s (Hbs & Hsz & Hs).
    rewrite putCell_hasBoundary, putCell_size. split_and!; [done..|].
    destruct (decide (Permanent (WorldMap.getCell s x' y'))) as [Hp|Hnp].
    + by rewrite putCell_rejected.
    + rewrite putCell_accepted_stored by done.
      destruct (Z.eqb_spec x x') as [->|]; simpl; [|done].
      destruct (Z.eqb_spec y y') as [->|]; simpl; [|done].
      exfalso. apply Hnp. rewrite Hwall by done. by left. }
  split_and!.
  - by apply Hwall.
  - intros cell. rewrite <- (Hwall w) by done.
    apply putCell_rejected. rewrite Hwall by done. by left.
  - intros ops. by apply Hkeep.
  - intros ops. by apply Hkeep.
Qed.

Lemma putCell_out_of_bounds_witness :
  WorldMap.getCell example_world 5 0 = WALL ∧
  (∀ cell, WorldMap.putCell cell 5 0 example_world = (WALL, example_world)) ∧
  (∀ ops, stored example_world 5 0 = None →
          stored (do_writes ops example_world) 5 0 = None) ∧
  (∀ ops, stored (do_writes ops (WorldMap.clearMap example_world)) 5 0 = None).
Proof.
  apply (putCell_out_of_bounds example_world 5 0); [reflexivity|].
  apply example_world_outside; lia.
Defined.

(** ** C5: neighbours *)

(** Without diagonals the result is the four orthogonal neighbours in the
    order +x, -x, +y, -y, the solid ones removed. *)
Lemma getNeighbours_orthogonal w x y :
  WorldMap.getNeighbours w x y false
  = List.filter
      (fun n => negb (WorldMap.isCellSolid w (Vec2.x n) (Vec2.y n)))
      [Vec2.mk (x + 1) y; Vec2.mk (x + -1) y;
       Vec2.mk (x + 0) (y + 1); Vec2.mk (x + 0) (y + -1)].
Proof.
  unfold WorldMap.getNeighbours, Vec2.add; simpl.
  by rewrite !Z.add_0_r.
Qed.

Lemma getNeighbours_not_solid w x y d n :
  n ∈ WorldMap.getNeighbours w x y d →
  ¬ Solid (WorldMap.getCell w (Vec2.x n) (Vec2.y n)).
Proof.
  unfold WorldMap.getNeighbours.
  intros Hin%list_elem_of_In%filter_In Hs. destruct Hin as [_ Hin].
  apply truthy_SOLID in Hs. unfold WorldMap.isCellSolid in Hin.
  by rewrite Hs in Hin.
Qed.

(** With diagonals the source pushes the four orthogonal offsets a second
    time. *)
Lemma getNeighbours_diagonals_repeat w x y :
  WorldMap.getNeighbours w x y true
  = WorldMap.getNeighbours w x y false ++ WorldMap.getNeighbours w x y false.
Proof.
  unfold WorldMap.getNeighbours.
  by rewrite <- List.filter_app.
Qed.

(** C5. On an empty 5 x 5 bounded map, [getNeighbours(2, 2, true)] is the
    four orthogonal neighbours twice over; none of the diagonal
    neighbours (3,3), (1,3), (3,1), (1,1) is returned, though all four
    are [EMPTY]. *)
Theorem getNeighbours_diagonals_missing :
  let w := WorldMap.constructor true 5 5 true true true in
  WorldMap.getNeighbours w 2 2 true
  = [Vec2.mk 3 2; Vec2.mk 1 2; Vec2.mk 2 3; Vec2.mk 2 1;
     Vec2.mk 3 2; Vec2.mk 1 2; Vec2.mk 2 3; Vec2.mk 2 1]
  ∧ WorldMap.isCellSolid w 3 3 = false
  ∧ WorldMap.isCellSolid w 1 3 = false
  ∧ WorldMap.isCellSolid w 3 1 = false
  ∧ WorldMap.isCellSolid w 1 1 = false.
Proof. vm_compute. by split_and!. Qed.

(** ** The worker-side map *)

Lemma worker_do_writes_invariant (P : WorkerWorldMap.t → Prop) :
  (∀ c x y s, P s → P (WorkerWorldMap.putCell c x y s).2) →
  ∀ ops s, P s → P (worker_do_writes ops s).
Proof.
  intros Hput ops. unfold worker_do_writes.
  induction ops as [|op ops IH]; simpl; [done|].
  intros s Hs. apply IH. destruct op as [cell x y|cell x y w h]; simpl.
  - by apply Hput.
  - unfold WorkerWorldMap.hollowRect.
    by apply (hollowRect_with_invariant P).
Qed.

(** What one [putCell] of the worker does to its four parts, whatever the
    inherited write answered. *)
Lemma worker_putCell_unfold cellType x y w :
  let r := WorkerWorldMap.putCell cellType x y w in
  r.1 = (WorldMap.putCell cellType x y (WorkerWorldMap.base w)).1 ∧
  WorkerWorldMap.base r.2
  = (WorldMap.putCell cellType x y (WorkerWorldMap.base w)).2 ∧
  WorkerWorldMap.alwaysUpdate r.2 = WorkerWorldMap.alwaysUpdate w ∧
  WorkerWorldMap.maxCellQueue r.2 = WorkerWorldMap.maxCellQueue w ∧
  if WorkerWorldMap.alwaysUpdate w then
    WorkerWorldMap.posted r.2
    = WorkerWorldMap.posted w ++ [map_add_cells (triple cellType x y)] ∧
    WorkerWorldMap.cellQueue r.2 = WorkerWorldMap.cellQueue w
  else if Z.of_nat (length (WorkerWorldMap.cellQueue w)) + 3
          >=? WorkerWorldMap.maxCellQueue w then
    WorkerWorldMap.posted r.2
    = WorkerWorldMap.posted w
        ++ [map_add_cells (WorkerWorldMap.cellQueue w ++ triple cellType x y)] ∧
    WorkerWorldMap.cellQueue r.2 = []
  else
    WorkerWorldMap.posted r.2 = WorkerWorldMap.posted w ∧
    WorkerWorldMap.cellQueue r.2
    = WorkerWorldMap.cellQueue w ++ triple cellType x y.
Proof.
  unfold WorkerWorldMap.putCell.
  destruct (WorldMap.putCell cellType x y (WorkerWorldMap.base w))
    as [added b]; simpl.
  destruct (WorkerWorldMap.alwaysUpdate w) eqn:Hau; simpl; [done|].
  rewrite length_app; simpl.
  replace (Z.of_nat (length (WorkerWorldMap.cellQueue w) + 3))
    with (Z.of_nat (length (WorkerWorldMap.cellQueue w)) + 3) by lia.
  destruct (_ >=? _); simpl; by rewrite ?Hau.
Qed.

(** ** C4: rejected writes on the worker side *)

(** C4, as stated, fails: cell (1,1) of [example_worker] is [START] and
    [putCell(PATH, 1, 1)] is rejected by the inherited write, yet the
    pending batch goes from empty to [PATH, 1, 1]; in always-update mode
    the same call posts the message [map_add_cells, PATH, 1, 1]. *)
Lemma worker_putCell_rejected_is_reported :
  Permanent (WorldMap.getCell (WorkerWorldMap.base example_worker) 1 1) ∧
  (WorkerWorldMap.putCell PATH 1 1 example_worker).1 = START ∧
  WorkerWorldMap.base (WorkerWorldMap.putCell PATH 1 1 example_worker).2
  = WorkerWorldMap.base example_worker ∧
  WorkerWorldMap.cellQueue (WorkerWorldMap.putCell PATH 1 1 example_worker).2
  ≠ WorkerWorldMap.cellQueue example_worker ∧
  WorkerWorldMap.posted
    (WorkerWorldMap.putCell PATH 1 1 example_worker_always).2
  ≠ WorkerWorldMap.posted example_worker_always.
Proof.
  split_and!; [right; left; reflexivity|reflexivity|reflexivity| |];
    vm_compute; discriminate.
Qed.

(** C4, amended. Every [putCell] on the worker-side map is reported,
    whether the inherited write accepts it or not: in always-update mode
    a message carrying the triple is posted; in threshold mode the triple
    joins the pending batch, which is posted and emptied when its flat
    length has reached [maxCellQueue].  When the target reads Permanent
    the map is left as it is and the existing state is returned. *)
Theorem worker_putCell_always_reports cellType x y w :
  let r := WorkerWorldMap.putCell cellType x y w in
  (if WorkerWorldMap.alwaysUpdate w then
     WorkerWorldMap.posted r.2
     = WorkerWorldMap.posted w ++ [map_add_cells (triple cellType x y)] ∧
     WorkerWorldMap.cellQueue r.2 = WorkerWorldMap.cellQueue w
   else if Z.of_nat (length (WorkerWorldMap.cellQueue w)) + 3
           >=? WorkerWorldMap.maxCellQueue w then
     WorkerWorldMap.posted r.2
     = WorkerWorldMap.posted w
         ++ [map_add_cells (WorkerWorldMap.cellQueue w ++ triple cellType x y)] ∧
     WorkerWorldMap.cellQueue r.2 = []
   else
     WorkerWorldMap.posted r.2 = WorkerWorldMap.posted w ∧
     WorkerWorldMap.cellQueue r.2
     = WorkerWorldMap.cellQueue w ++ triple cellType x y) ∧
  (Permanent (WorldMap.getCell (WorkerWorldMap.base w) x y) →
   r.1 = WorldMap.getCell (WorkerWorldMap.base w) x y ∧
   WorkerWorldMap.base r.2 = WorkerWorldMap.base w).
Proof.
  intros r.
  destruct (worker_putCell_unfold cellType x y w) as (H1 & H2 & _ & _ & H3).
  fold r in H1, H2, H3. split; [exact H3|].
  intros Hp. rewrite (putCell_rejected _ _ _ _ Hp) in H1, H2. by split.
Qed.

Lemma worker_putCell_always_reports_witness :
  (WorkerWorldMap.putCell PATH 1 1 example_worker).1 = START ∧
  WorkerWorldMap.base (WorkerWorldMap.putCell PATH 1 1 example_worker).2
  = WorkerWorldMap.base example_worker.
Proof.
  assert (Hp : Permanent
                 (WorldMap.getCell (WorkerWorldMap.base example_worker) 1 1)).
  { right; left; reflexivity. }
  exact (proj2 (worker_putCell_always_reports PATH 1 1 example_worker) Hp).
Defined.

(** ** C3: the flush threshold *)

(** In threshold mode with [maxCellQueue = k >= 1], starting with nothing
    pending, [n] writes post [n / q] messages of [q] cells each and leave
    [n mod q] cells pending, where [q] is [k / 3] rounded up. *)
Lemma threshold_batches k ps p :
  1 ≤ k →
  WorkerWorldMap.alwaysUpdate p = false →
  WorkerWorldMap.maxCellQueue p = k →
  WorkerWorldMap.cellQueue p = [] →
  WorkerWorldMap.posted p = [] →
  let q := (k + 2) / 3 in
  let n := Z.of_nat (length ps) in
  let p' := worker_puts ps p in
  WorkerWorldMap.alwaysUpdate p' = false ∧
  WorkerWorldMap.maxCellQueue p' = k ∧
  Z.of_nat (length (WorkerWorldMap.posted p')) = n / q ∧
  Forall (is_batch_of q) (WorkerWorldMap.posted p') ∧
  Z.of_nat (length (WorkerWorldMap.cellQueue p')) = 3 * (n mod q).
Proof.
  intros Hk Hau Hmax Hq0 Hp0 q. simpl.
  assert (Hq : 1 ≤ q ∧ k ≤ 3 * q ∧ 3 * q < k + 3).
  { subst q. pose proof (Z.div_mod (k + 2) 3 ltac:(lia)) as Hdm.
    pose proof (Z.mod_pos_bound (k + 2) 3 ltac:(lia)). lia. }
  induction ps as [|[[c x] y] ps IH] using rev_ind.
  - simpl. rewrite Hq0, Hp0. simpl.
    rewrite Z.div_0_l, Z.mod_0_l by lia. by split_and!.
  - unfold worker_puts in *. rewrite fold_left_app, length_app. simpl.
    set (p1 := fold_left _ ps p) in *.
    destruct IH as (Hau1 & Hmax1 & Hlen & Hall & Hpend).
    destruct (worker_putCell_unfold c x y p1) as (_ & _ & Hau2 & Hmax2 & Hev).
    simpl in Hau2, Hmax2, Hev. rewrite Hau1 in Hev. rewrite Hmax1 in Hev.
    rewrite Hau2, Hmax2, Hau1, Hmax1.
    set (n := Z.of_nat (length ps)) in *.
    replace (Z.of_nat (length ps + 1)) with (n + 1) by lia.
    pose proof (Z.div_mod n q ltac:(lia)) as Hn.
    pose proof (Z.mod_pos_bound n q ltac:(lia)) as Hr.
    destruct (Z.geb_spec
                (Z.of_nat (length (WorkerWorldMap.cellQueue p1)) + 3) k)
      as [Hfull|Hroom].
    + destruct Hev as [-> ->].
      assert (Hlast : n mod q = q - 1) by lia.
      assert (Hdiv : (n + 1) / q = n / q + 1).
      { symmetry. apply (Z.div_unique (n + 1) q _ 0); lia. }
      assert (Hmod : (n + 1) mod q = 0).
      { symmetry. apply (Z.mod_unique (n + 1) q (n / q + 1) 0); lia. }
      rewrite length_app, Hdiv, Hmod. simpl. split_and!; try done; try lia.
      apply Forall_app. split; [done|]. apply Forall_singleton.
      eexists. split; [done|]. rewrite length_app. simpl. lia.
    + destruct Hev as [-> ->].
      assert (Hdiv : (n + 1) / q = n / q).
      { symmetry. apply (Z.div_unique (n + 1) q _ (n mod q + 1)); lia. }
      assert (Hmod : (n + 1) mod q = n mod q + 1).
      { symmetry. apply (Z.mod_unique (n + 1) q (n / q) (n mod q + 1)); lia. }
      rewrite length_app, Hdiv, Hmod. simpl. split_and!; try done; lia.
Qed.

(** With the page's [MAX_CELL_QUEUE] a message carries 17 cells. *)
Example page_batch_cells : (Script.MAX_CELL_QUEUE + 2) / 3 = 17.
Proof. reflexivity. Qed.

(** C3. Threshold mode with [maxCellQueue = 4]: the second accepted write
    already fills a message, because the threshold is compared with the
    flat length of the queue, three entries per cell.  Two cells are
    posted as one batch and nothing is left pending, where a threshold
    counted in cells would post [2 / 4 = 0] batches and keep both cells
    pending. *)
Theorem threshold_counts_entries :
  let p0 := WorkerWorldMap.constructor 5 5 true false 4 in
  let p1 := (WorkerWorldMap.putCell CALCULATING 0 0 p0).2 in
  let p2 := (WorkerWorldMap.putCell CALCULATING 1 0 p1).2 in
  (WorkerWorldMap.putCell CALCULATING 0 0 p0).1 = CALCULATING ∧
  WorldMap.getCell (WorkerWorldMap.base p1) 0 0 = CALCULATING ∧
  (WorkerWorldMap.putCell CALCULATING 1 0 p1).1 = CALCULATING ∧
  WorldMap.getCell (WorkerWorldMap.base p2) 1 0 = CALCULATING ∧
  WorkerWorldMap.posted p1 = [] ∧
  WorkerWorldMap.posted p2
  = [map_add_cells [JsCell CALCULATING; JsNum 0; JsNum 0;
                    JsCell CALCULATING; JsNum 1; JsNum 0]] ∧
  WorkerWorldMap.cellQueue p2 = [] ∧
  Z.of_nat (length (WorkerWorldMap.posted p2)) = 1 ∧
  2 / WorkerWorldMap.maxCellQueue p0 = 0.
Proof. vm_compute. by split_and!. Qed.

(** ** C6: replaying the posted batches *)

Lemma Mirror_getCell a b x y :
  Mirror a b → WorldMap.getCell a x y = WorldMap.getCell b x y.
Proof.
  intros (Hm & Hs & Hb).
  unfold WorldMap.getCell, WorldMap.outOfBounds. by rewrite Hm, Hs, Hb.
Qed.

Lemma Mirror_putCell a b cell x y :
  Mirror a b →
  Mirror (WorldMap.putCell cell x y a).2 (WorldMap.putCell cell x y b).2.
Proof.
  intros HM. pose proof (Mirror_getCell a b x y HM) as Hg.
  destruct HM as (Hm & Hs & Hb).
  unfold WorldMap.putCell. rewrite Hg.
  destruct (truthy _ _); [done|].
  unfold Mirror; simpl. by rewrite Hm, Hs, Hb.
Qed.

Lemma replay_snoc batches args w :
  replay (batches ++ [args]) w
  = match replay batches w with
    | Some s => Script.add_cells args s
    | None => None
    end.
Proof. unfold replay. by rewrite fold_left_app. Qed.

Lemma cells_added_batches_snoc msgs msg :
  cells_added_batches (msgs ++ [msg])
  = cells_added_batches msgs
      ++ match msg with map_add_cells args => [args] | _ => [] end.
Proof.
  unfold cells_added_batches. rewrite flat_map_app; simpl.
  by rewrite app_nil_r.
Qed.

Lemma add_cells_triple c x y w :
  Script.add_cells (triple c x y) w = Some (WorldMap.putCell c x y w).2.
Proof. reflexivity. Qed.

Lemma add_cells_app l1 l2 w w1 :
  Script.add_cells l1 w = Some w1 →
  Script.add_cells (l1 ++ l2) w = Script.add_cells l2 w1.
Proof.
  remember (length l1) as n eqn:Hn.
  revert l1 w Hn. induction n as [n IH] using lt_wf_ind.
  intros l1 w Hn H.
  destruct l1 as [|[c|?] [|[?|x] [|[?|y] rest]]]; simpl in H; try done.
  - by injection H as ->.
  - simpl. apply (IH (length rest)); [simpl in Hn; lia|done|done].
Qed.

Section Replay.
Variable pre : list WorkerMessage.
Variable mirrored : WorldMap.t.

Lemma in_step_putCell c x y p :
  in_step pre mirrored p → in_step pre mirrored (WorkerWorldMap.putCell c x y p).2.
Proof.
  intros (new & seen & cw & Hposted & Hseen & Hcw & HM & Hau).
  destruct (worker_putCell_unfold c x y p) as (_ & Hb & Hau' & _ & Hev).
  pose proof (Mirror_putCell _ _ c x y HM) as HM'.
  rewrite <- Hb in HM'.
  unfold in_step. rewrite Hau'.
  destruct (WorkerWorldMap.alwaysUpdate p) eqn:E.
  - destruct Hev as [-> ->]. rewrite (Hau eq_refl) in Hcw |- *.
    injection Hcw as <-.
    exists (new ++ [map_add_cells (triple c x y)]),
      (WorldMap.putCell c x y seen).2, (WorldMap.putCell c x y seen).2.
    rewrite Hposted, cells_added_batches_snoc, replay_snoc, Hseen, app_assoc.
    by split_and!.
  - destruct (_ >=? _).
    + destruct Hev as [-> ->].
      exists (new ++ [map_add_cells
                        (WorkerWorldMap.cellQueue p ++ triple c x y)]),
        (WorldMap.putCell c x y cw).2, (WorldMap.putCell c x y cw).2.
      rewrite Hposted, cells_added_batches_snoc, replay_snoc, Hseen, app_assoc.
      rewrite (add_cells_app _ _ _ _ Hcw).
      by split_and!.
    + destruct Hev as [-> ->].
      exists new, seen, (WorldMap.putCell c x y cw).2.
      rewrite (add_cells_app _ _ _ _ Hcw).
      by split_and!.
Qed.

Lemma in_step_sendCellQueue p :
  in_step pre mirrored p →
  ∃ new cw,
    WorkerWorldMap.posted (WorkerWorldMap.sendCellQueue p) = pre ++ new ∧
    WorkerWorldMap.cellQueue (WorkerWorldMap.sendCellQueue p) = [] ∧
    replay (cells_added_batches new) mirrored = Some cw ∧
    Mirror cw (WorkerWorldMap.base (WorkerWorldMap.sendCellQueue p)).
Proof.
  intros (new & seen & cw & Hposted & Hseen & Hcw & HM & Hau).
  exists (new ++ [map_add_cells (WorkerWorldMap.cellQueue p)]), cw; simpl.
  rewrite Hposted, cells_added_batches_snoc, replay_snoc, Hseen, app_assoc.
  by split_and!.
Qed.

End Replay.

(** C6. For a run of any writes on a producer whose pending batch is
    empty, the [map_add_cells] payloads posted during the run, replayed in
    order by the listener's loop on an empty mirrored map of the same size
    and boundary flag, are all consumed and rebuild the producer's map:
    the two maps are equal and [getCell] agrees at every coordinate. *)
Theorem replay_rebuilds_producer_map ops p mirrored :
  WorkerWorldMap.cellQueue p = [] →
  WorldMap.map mirrored = JsMap.empty →
  WorldMap.size mirrored = WorldMap.size (WorkerWorldMap.base p) →
  WorldMap.hasBoundary mirrored
  = WorldMap.hasBoundary (WorkerWorldMap.base p) →
  ∃ new m,
    WorkerWorldMap.posted (run ops p) = WorkerWorldMap.posted p ++ new ∧
    WorkerWorldMap.cellQueue (run ops p) = [] ∧
    replay (cells_added_batches new) mirrored = Some m ∧
    WorldMap.map m = WorldMap.map (WorkerWorldMap.base (run ops p)) ∧
    ∀ x y,
      WorldMap.getCell m x y
      = WorldMap.getCell (WorkerWorldMap.base (run ops p)) x y.
Proof.
  intros Hq Hm Hs Hb. unfold run.
  set (p1 := WorkerWorldMap.clearMap (WorkerWorldMap.postMessage lock_gen p)).
  assert (H1 : in_step (WorkerWorldMap.posted p) mirrored p1).
  { exists [lock_gen; map_reset], mirrored, mirrored.
    subst p1; simpl. rewrite Hq, <- app_assoc. by split_and!. }
  apply (worker_do_writes_invariant _
           (in_step_putCell (WorkerWorldMap.posted p) mirrored) ops) in H1.
  apply in_step_sendCellQueue in H1 as (new & cw & Hposted & Hqueue & Hrep & HM).
  remember (WorkerWorldMap.sendCellQueue _) as p2 eqn:Hp2. clear Hp2.
  exists (new ++ [unlock_gen]), cw; simpl.
  rewrite Hposted, cells_added_batches_snoc, app_nil_r, app_assoc.
  split_and!; try done.
  - apply HM.
  - intros x y. by apply Mirror_getCell.
Qed.

Lemma replay_rebuilds_producer_map_witness :
  ∃ new m,
    WorkerWorldMap.posted
      (run [Put CALCULATING 2 2; HollowRect WALL 0 0 3 3; Put PATH 1 1]
           example_worker)
    = WorkerWorldMap.posted example_worker ++ new ∧
    replay (cells_added_batches new)
      (WorldMap.constructor true 5 5 true true true) = Some m ∧
    ∀ x y,
      WorldMap.getCell m x y
      = WorldMap.getCell
          (WorkerWorldMap.base
             (run [Put CALCULATING 2 2; HollowRect WALL 0 0 3 3; Put PATH 1 1]
                  example_worker)) x y.
Proof.
  destruct (replay_rebuilds_producer_map
              [Put CALCULATING 2 2; HollowRect WALL 0 0 3 3; Put PATH 1 1]
              example_worker
              (WorldMap.constructor true 5 5 true true true)
              eq_refl eq_refl eq_refl eq_refl)
    as (new & m & H1 & _ & H2 & _ & H3).
  exists new, m. exact (conj H1 (conj H2 H3)).
Defined.

(** ** The page *)

Lemma handle_all_None evs :
  fold_left
    (fun acc ev => match acc with Some s => handle ev s | None => None end)
    evs None = None.
Proof. by induction evs. Qed.

Lemma generatePath_locked s :
  Script.isPathGenLocked s = true → Script.generatePath s = s.
Proof. intros H. unfold Script.generatePath. by rewrite H. Qed.

Lemma changeWorldSize_locked v axis s :
  Script.isPathGenLocked s = true → Script.changeWorldSize v axis s = s.
Proof.
  intros H. unfold Script.changeWorldSize. rewrite H. by destruct v.
Qed.

Lemma changeActionDelay_locked d s :
  Script.isPathGenLocked s = true → Script.changeActionDelay d s = s.
Proof. intros H. unfold Script.changeActionDelay. by rewrite H. Qed.

(** ** C7: start requests while locked *)

(** C7. While [isPathGenLocked] holds, [generatePath] returns at once:
    the page state is unchanged and nothing is posted to the path
    generator.  Through any further events that do not include the
    arrival of [unlock_gen] the page stays locked and still nothing is
    posted, so no request is there to be answered by a second
    [lock_gen]. *)
Theorem generatePath_locked_is_dropped s :
  Script.isPathGenLocked s = true →
  Script.generatePath s = s ∧
  ∀ evs s',
    Received unlock_gen ∉ evs →
    handle_all evs s = Some s' →
    Script.isPathGenLocked s' = true ∧
    Script.toPathGenerator s' = Script.toPathGenerator s.
Proof.
  intros Hl. split; [by apply generatePath_locked|].
  intros evs. unfold handle_all. revert s Hl.
  induction evs as [|ev evs IH]; simpl; intros s Hl s' Hno Hrun.
  - by injection Hrun as <-.
  - apply not_elem_of_cons in Hno as [Hev Hno].
    destruct (handle ev s) as [s1|] eqn:Hstep;
      [|by rewrite handle_all_None in Hrun].
    assert (Script.isPathGenLocked s1 = true ∧
            Script.toPathGenerator s1 = Script.toPathGenerator s)
      as [Hl1 Hout1].
    { destruct ev as [|msg|v axis|d]; simpl in Hstep.
      - injection Hstep as <-. by rewrite generatePath_locked.
      - destruct msg as [args| | |]; simpl in Hstep.
        + destruct (Script.add_cells args (Script.WORLD_MAP s));
            [|done]. by injection Hstep as <-.
        + by injection Hstep as <-.
        + by injection Hstep as <-.
        + done.
      - injection Hstep as <-. by rewrite changeWorldSize_locked.
      - injection Hstep as <-. by rewrite changeActionDelay_locked. }
    rewrite <- Hout1. by apply (IH s1).
Qed.

Lemma generatePath_locked_is_dropped_witness :
  Script.generatePath locked_page = locked_page ∧
  ∀ s',
    handle_all [RestartKey; Received (map_add_cells (triple PATH 1 1));
                RestartKey] locked_page = Some s' →
    Script.toPathGenerator s' = Script.toPathGenerator locked_page.
Proof.
  destruct (generatePath_locked_is_dropped locked_page eq_refl) as [H1 H2].
  split; [exact H1|].
  intros s' Hrun.
  refine (proj2 (H2 _ s' _ Hrun)).
  intros Hin. repeat (apply elem_of_cons in Hin as [Hin|Hin]; [discriminate Hin|]).
  by apply elem_of_nil in Hin.
Defined.

(** ** C9: reconfiguration *)

(** C9. While [isPathGenLocked] holds, a world-size or an action-delay
    command changes nothing: size, stored cells and delay stay as they
    are.  A world-size command changes the page only when unlocked with a
    number between [MIN_WORLD_SIZE] and [MAX_WORLD_SIZE], and then clears
    the map and sets that axis; an action-delay command changes the page
    only when unlocked with a number that is not above
    [MAX_ACTION_TIME], and then sets the delay to that number, or to no
    delay when the number is not positive. *)
Theorem reconfiguration_needs_unlocked s :
  (Script.isPathGenLocked s = true →
   ∀ v axis d,
     Script.changeWorldSize v axis s = s ∧
     Script.changeActionDelay d s = s) ∧
  (∀ v axis,
     Script.changeWorldSize v axis s ≠ s →
     Script.isPathGenLocked s = false ∧
     ∃ n, v = Some n ∧
          Script.MIN_WORLD_SIZE ≤ n ≤ Script.MAX_WORLD_SIZE ∧
          Script.WORLD_MAP (Script.changeWorldSize v axis s)
          = Script.set_size_axis axis n
              (WorldMap.clearMap (Script.WORLD_MAP s))) ∧
  (∀ d,
     Script.changeActionDelay d s ≠ s →
     Script.isPathGenLocked s = false ∧
     PrimFloat.is_nan d = false ∧
     PrimFloat.ltb Script.MAX_ACTION_TIME d = false ∧
     Script.actionDelay (Script.changeActionDelay d s)
     = if PrimFloat.leb d 0%float then None else Some d).
Proof.
  split_and!.
  - intros Hl v axis d.
    by rewrite changeWorldSize_locked, changeActionDelay_locked.
  - intros v axis. unfold Script.changeWorldSize.
    destruct v as [n|]; [|done].
    destruct (Script.isPathGenLocked s); simpl; [done|].
    destruct (Z.ltb_spec n Script.MIN_WORLD_SIZE); simpl; [done|].
    destruct (Z.gtb_spec n Script.MAX_WORLD_SIZE); simpl; [done|].
    intros _. split; [done|]. exists n. split_and!; [done|lia|lia|done].
  - intros d. unfold Script.changeActionDelay.
    destruct (Script.isPathGenLocked s); simpl; [done|].
    destruct (PrimFloat.is_nan d); simpl; [done|].
    destruct (PrimFloat.ltb Script.MAX_ACTION_TIME d); simpl; [done|].
    intros _. split_and!; try done. by destruct (PrimFloat.leb d 0).
Qed.

Lemma reconfiguration_needs_unlocked_witness :
  (Script.changeWorldSize (Some 20) Script.axis_x locked_page = locked_page ∧
   Script.changeActionDelay 5%float locked_page = locked_page) ∧
  Script.WORLD_MAP (Script.changeWorldSize (Some 20) Script.axis_x Script.initial)
  = Script.set_size_axis Script.axis_x 20
      (WorldMap.clearMap (Script.WORLD_MAP Script.initial)) ∧
  Script.actionDelay (Script.changeActionDelay 5%float Script.initial)
  = Some 5%float.
Proof.
  destruct (reconfiguration_needs_unlocked locked_page) as (H1 & _ & _).
  destruct (reconfiguration_needs_unlocked Script.initial) as (_ & H2 & H3).
  split; [|split].
  - exact (H1 eq_refl (Some 20) Script.axis_x 5%float).
  - assert (Hne : Script.changeWorldSize (Some 20) Script.axis_x Script.initial
                  ≠ Script.initial) by discriminate.
    destruct (H2 (Some 20) Script.axis_x Hne) as (_ & n & Hn & _ & Hmap).
    injection Hn as <-. exact Hmap.
  - assert (Hne : Script.changeActionDelay 5%float Script.initial
                  ≠ Script.initial).
    { intros Heq. apply (f_equal Script.actionDelay) in Heq.
      vm_compute in Heq. discriminate Heq. }
    exact (proj2 (proj2 (proj2 (H3 5%float Hne)))).
Defined.

(** ** C8: snapshot and replay *)

Lemma WellFormed_constructor d w h b sb ib :
  WellFormed (WorldMap.constructor d w h b sb ib).
Proof.
  split; [apply NoDup_nil_2|]. intros x col Hin. by apply elem_of_nil in Hin.
Qed.

Lemma WellFormed_clearMap w : WellFormed (WorldMap.clearMap w).
Proof.
  split; [apply NoDup_nil_2|]. intros x col Hin. by apply elem_of_nil in Hin.
Qed.

Lemma JsMap_elem_set {V : Type} (m : JsMap.t V) k v k' v' :
  (k', v') ∈ JsMap.set k v m → (k', v') = (k, v) ∨ (k', v') ∈ m.
Proof.
  induction m as [|[k0 v0] m IH]; simpl.
  - intros ->%list_elem_of_singleton. by left.
  - destruct (Z.eqb_spec k k0) as [->|Hne].
    + intros [->|Hin]%elem_of_cons; [by left|].
      right. by apply list_elem_of_further.
    + intros [->|Hin]%elem_of_cons; [right; apply list_elem_of_here|].
      destruct (IH Hin) as [->|Hin']; [by left|].
      right. by apply list_elem_of_further.
Qed.

Lemma WellFormed_putCell cell x y w :
  WellFormed w → WellFormed (WorldMap.putCell cell x y w).2.
Proof.
  intros [Houter Hinner]. unfold WorldMap.putCell.
  destruct (truthy _ _); [done|]. unfold WellFormed; simpl.
  set (m1 := if negb (JsMap.has x (WorldMap.map w))
             then JsMap.set x JsMap.empty (WorldMap.map w)
             else WorldMap.map w).
  assert (Hm1 : JsMap.wf m1 ∧ ∀ x' col, (x', col) ∈ m1 → JsMap.wf col).
  { subst m1. destruct (negb _); [|done].
    split; [by apply JsMap_set_wf|].
    intros x' col [[= -> ->]|Hin]%JsMap_elem_set; [apply NoDup_nil_2|].
    by apply (Hinner x'). }
  destruct Hm1 as [Hm1 Hm1'].
  destruct (JsMap.get x m1) as [col|] eqn:Hget; [|done].
  split; [by apply JsMap_set_wf|].
  intros x' col' [[= -> ->]|Hin]%JsMap_elem_set; [|by apply (Hm1' x')].
  apply JsMap_set_wf, (Hm1' x), JsMap_get_Some_elem, Hget.
Qed.

Lemma replay_pairs_size pairs w :
  WorldMap.size (replay_pairs pairs w) = WorldMap.size w ∧
  WorldMap.hasBoundary (replay_pairs pairs w) = WorldMap.hasBoundary w.
Proof.
  unfold replay_pairs. revert w.
  induction pairs as [|[pos cell] pairs IH]; simpl; [done|].
  intros w. destruct (IH (WorldMap.putCell cell (Vec2.x pos) (Vec2.y pos) w).2)
    as [-> ->].
  by rewrite putCell_size, putCell_hasBoundary.
Qed.

(** The snapshot lists exactly the recorded cells that are not [EMPTY]. *)
Lemma mapToNodePairArray_elem w x y c :
  WellFormed w →
  (Vec2.mk x y, c) ∈ WorldMap.mapToNodePairArray true w
  ↔ stored w x y = Some c ∧ c ≠ EMPTY.
Proof.
  intros [Houter Hinner]. unfold WorldMap.mapToNodePairArray, stored.
  rewrite list_elem_of_In, in_flat_map. split.
  - intros ([x0 col] & Hcol & Hin).
    apply in_flat_map in Hin as ([y0 cell] & Hcell & Hin). simpl in Hin.
    destruct (cell_neq cell EMPTY) eqn:Hne; [|done].
    destruct Hin as [[= -> -> ->]|[]].
    apply list_elem_of_In in Hcol, Hcell.
    rewrite (JsMap_elem_get _ _ _ Houter Hcol).
    rewrite (JsMap_elem_get _ _ _ (Hinner _ _ Hcol) Hcell).
    split; [done|]. by apply cell_neq_spec.
  - intros [Hst Hne].
    destruct (JsMap.get x (WorldMap.map w)) as [col|] eqn:Hx; [|done].
    exists (x, col). split.
    + by apply list_elem_of_In, JsMap_get_Some_elem.
    + apply in_flat_map. exists (y, c). split.
      * by apply list_elem_of_In, JsMap_get_Some_elem.
      * simpl. apply cell_neq_spec in Hne. rewrite Hne. by left.
Qed.

Section ReplayPairs.
Variables (x y : Z).

Lemma replay_pairs_absent pairs e :
  (∀ c', (Vec2.mk x y, c') ∉ pairs) →
  WorldMap.getCell (replay_pairs pairs e) x y = WorldMap.getCell e x y.
Proof.
  unfold replay_pairs. revert e.
  induction pairs as [|[[px py] c0] pairs IH]; simpl; intros e Hno; [done|].
  rewrite IH.
  - rewrite getCell_putCell. destruct (truthy _ _); [done|].
    destruct (Z.eqb_spec x px) as [->|]; simpl; [|done].
    destruct (Z.eqb_spec y py) as [->|]; simpl; [|done].
    destruct (Hno c0). apply list_elem_of_here.
  - intros c' Hin. apply (Hno c'). by apply list_elem_of_further.
Qed.

Lemma replay_pairs_keeps pairs e c :
  (∀ c', (Vec2.mk x y, c') ∈ pairs → c' = c) →
  WorldMap.getCell e x y = c →
  WorldMap.getCell (replay_pairs pairs e) x y = c.
Proof.
  unfold replay_pairs. revert e.
  induction pairs as [|[[px py] c0] pairs IH]; simpl; intros e Hfun He;
    [done|].
  apply IH.
  - intros c' Hin. apply Hfun. by apply list_elem_of_further.
  - rewrite getCell_putCell. destruct (truthy _ _); [done|].
    destruct (Z.eqb_spec x px) as [->|]; simpl; [|done].
    destruct (Z.eqb_spec y py) as [->|]; simpl; [|done].
    apply Hfun, list_elem_of_here.
Qed.

Lemma replay_pairs_writes pairs e c :
  (∀ c', (Vec2.mk x y, c') ∈ pairs → c' = c) →
  (Vec2.mk x y, c) ∈ pairs →
  ¬ Permanent (WorldMap.getCell e x y) →
  WorldMap.getCell (replay_pairs pairs e) x y = c.
Proof.
  revert e.
  induction pairs as [|[[px py] c0] pairs IH]; intros e Hfun Hin Hnp.
  { by apply elem_of_nil in Hin. }
  assert (Hfun' : ∀ c', (Vec2.mk x y, c') ∈ pairs → c' = c).
  { intros c' H. apply Hfun. by apply list_elem_of_further. }
  change (replay_pairs ((Vec2.mk px py, c0) :: pairs) e)
    with (replay_pairs pairs (WorldMap.putCell c0 px py e).2).
  destruct (decide (px = x ∧ py = y)) as [[-> ->]|Hother].
  - apply replay_pairs_keeps; [done|].
    rewrite getCell_putCell.
    destruct (truthy _ _) eqn:E; [by apply truthy_PERMANENT in E|].
    rewrite !Z.eqb_refl; simpl. apply Hfun, list_elem_of_here.
  - apply elem_of_cons in Hin as [[= <- <- _]|Hin]; [by destruct Hother|].
    apply IH; [done..|].
    rewrite getCell_putCell. destruct (truthy _ _); [done|].
    destruct (Z.eqb_spec x px) as [->|]; simpl; [|done].
    destruct (Z.eqb_spec y py) as [->|]; simpl; [|done].
    by destruct Hother.
Qed.

End ReplayPairs.

(** C8. For a map whose nested [Map]s have distinct keys (as every
    JavaScript [Map] has), the pairs of [mapToNodePairArray(true)] written
    back through [putCell] on a cleared map of the same size and boundary
    flag give a map on which [getCell] agrees with the original at every
    coordinate. *)
Theorem snapshot_replay_roundtrip w fresh :
  WellFormed w →
  WorldMap.size fresh = WorldMap.size w →
  WorldMap.hasBoundary fresh = WorldMap.hasBoundary w →
  ∀ x y,
    WorldMap.getCell
      (replay_pairs (WorldMap.mapToNodePairArray true w)
                    (WorldMap.clearMap fresh)) x y
    = WorldMap.getCell w x y.
Proof.
  intros Hwf Hs Hb x y.
  set (pairs := WorldMap.mapToNodePairArray true w).
  set (e := WorldMap.clearMap fresh).
  destruct (replay_pairs_size pairs e) as [Hs' Hb'].
  assert (He : WorldMap.getCell e x y
               = if WorldMap.hasBoundary w && WorldMap.outOfBounds w x y
                 then WALL else EMPTY).
  { unfold WorldMap.getCell, WorldMap.outOfBounds; subst e; simpl.
    by rewrite Hs, Hb. }
  rewrite (getCell_stored w).
  destruct (WorldMap.hasBoundary w && WorldMap.outOfBounds w x y) eqn:Hout.
  - rewrite getCell_stored. unfold WorldMap.outOfBounds.
    rewrite Hs', Hb'. subst e; simpl. rewrite Hs, Hb.
    unfold WorldMap.outOfBounds in Hout. by rewrite Hout.
  - assert (Hfun : ∀ c c', stored w x y = Some c →
               (Vec2.mk x y, c') ∈ pairs → c' = c).
    { intros c c' Hst Hin.
      apply mapToNodePairArray_elem in Hin as [Hst' _]; [|done]. congruence. }
    assert (Hnone : (∀ c, stored w x y = Some c → c = EMPTY) →
               WorldMap.getCell (replay_pairs pairs e) x y = EMPTY).
    { intros Hempty. rewrite replay_pairs_absent; [done|].
      intros c' Hin.
      apply mapToNodePairArray_elem in Hin as [Hst Hne]; [|done].
      by apply Hne, Hempty. }
    destruct (stored w x y) as [c|] eqn:Hst.
    + destruct (decide (c = EMPTY)) as [->|Hne].
      * apply Hnone. by intros c [= <-].
      * apply replay_pairs_writes.
        -- intros c'. by apply Hfun.
        -- subst pairs. by apply mapToNodePairArray_elem.
        -- rewrite He. intros [H|[H|H]]; discriminate H.
    + apply Hnone. by intros c.
Qed.

Lemma snapshot_replay_roundtrip_witness :
  let replayed :=
    replay_pairs (WorldMap.mapToNodePairArray true example_world)
      (WorldMap.clearMap (WorldMap.constructor false 5 5 true false false)) in
  WorldMap.getCell replayed 1 1 = WorldMap.getCell example_world 1 1 ∧
  WorldMap.getCell replayed 2 3 = WorldMap.getCell example_world 2 3 ∧
  WorldMap.getCell replayed 0 4 = WorldMap.getCell example_world 0 4 ∧
  WorldMap.getCell replayed 5 (-1) = WorldMap.getCell example_world 5 (-1).
Proof.
  assert (Hwf : WellFormed example_world).
  { apply (do_writes_invariant WellFormed).
    - intros c x y s. apply WellFormed_putCell.
    - apply WellFormed_constructor. }
  pose proof (snapshot_replay_roundtrip example_world
                (WorldMap.constructor false 5 5 true false false)
                Hwf eq_refl eq_refl) as H.
  exact (conj (H 1 1) (conj (H 2 3) (conj (H 0 4) (H 5 (-1))))).
Defined.

(** * Further properties *)

(** ** Loops *)

Lemma elem_of_loop_range start count i :
  i ∈ loop_range start count ↔ start ≤ i < start + Z.of_nat count.
Proof.
  revert start. induction count as [|n IH]; intros start; simpl.
  - rewrite elem_of_nil. lia.
  - rewrite elem_of_cons, IH. lia.
Qed.

Lemma for_loop_appends {A : Type} (g : Z → list A) (body : Z → list A → list A) :
  (∀ i l, body i l = l ++ g i) →
  ∀ count start l,
    for_loop start count body l
    = l ++ List.flat_map g (loop_range start count).
Proof.
  intros Hbody count. induction count as [|n IH]; intros start l; simpl.
  - by rewrite app_nil_r.
  - by rewrite IH, Hbody, <- app_assoc.
Qed.

Lemma for_loop_related {A B : Type} (R : A → B → Prop)
    (body1 : Z → A → A) (body2 : Z → B → B) :
  (∀ i a b, R a b → R (body1 i a) (body2 i b)) →
  ∀ count start a b,
    R a b → R (for_loop start count body1 a) (for_loop start count body2 b).
Proof.
  intros Hbody count. induction count as [|n IH]; simpl; [done|].
  intros start a b Hab. by apply IH, Hbody.
Qed.

Lemma hollowRect_with_related {A B : Type} (R : A → B → Prop)
    (put1 : CellType → Z → Z → A → A) (put2 : CellType → Z → Z → B → B)
    (cell1 cell2 : CellType) :
  (∀ x y a b, R a b → R (put1 cell1 x y a) (put2 cell2 x y b)) →
  ∀ x y w h a b,
    R a b →
    R (WorldMap.hollowRect_with put1 cell1 x y w h a)
      (WorldMap.hollowRect_with put2 cell2 x y w h b).
Proof.
  intros Hput x y w h a b Hab. unfold WorldMap.hollowRect_with.
  apply for_loop_related; [|done].
  intros relX a' b' Hab'. destruct (_ || _).
  - apply for_loop_related; [|done]. intros; by apply Hput.
  - by apply Hput, Hput.
Qed.

(** [hollowRect] is the writes of [hollowRect_cells], one after the
    other. *)
Lemma hollowRect_with_cells {S : Type} (put : CellType → Z → Z → S → S)
    cell x y w h s :
  WorldMap.hollowRect_with put cell x y w h s
  = fold_left (fun s '(a, b) => put cell a b s) (hollowRect_cells x y w h) s.
Proof.
  unfold hollowRect_cells.
  apply (hollowRect_with_related
           (fun s' cells =>
              s' = fold_left (fun s '(a, b) => put cell a b s) cells s)
           put (fun _ a b cells => cells ++ [(a, b)]) cell WALL); [|done].
  intros a b s' cells ->. by rewrite fold_left_app.
Qed.



(** ** [hollowRect] *)






(** ** [getNeighbours], [isCellSolid], [isCellType] *)

Lemma isCellSolid_WALL w x y :
  WorldMap.isCellSolid w x y = true ↔ WorldMap.getCell w x y = WALL.
Proof.
  unfold WorldMap.isCellSolid. rewrite <- (truthy_SOLID (WorldMap.getCell w x y)).
  by destruct (truthy _ _).
Qed.

Lemma elem_of_getNeighbours w x y d px py :
  Vec2.mk px py ∈ WorldMap.getNeighbours w x y d
  ↔ Adjacent x y px py ∧ WorldMap.getCell w px py ≠ WALL.
Proof.
  unfold WorldMap.getNeighbours, Adjacent.
  rewrite list_elem_of_In, filter_In. simpl.
  rewrite negb_true_iff, <- not_true_iff_false, isCellSolid_WALL.
  apply and_iff_compat_r. unfold Vec2.add; simpl. split.
  - intros Hin. destruct d; simpl in Hin;
      repeat (destruct Hin as [Hin|Hin]; [injection Hin as <- <-; lia|]);
      destruct Hin.
  - intros [[-> ->]|[[-> ->]|[[-> ->]|[-> ->]]]];
      destruct d; simpl;
      repeat (first [ left; f_equal; lia | right ]).
Qed.


(** X4. On a map with a boundary every coordinate [getNeighbours]
    returns lies inside the map. *)
Theorem getNeighbours_in_bounds w x y d n :
  WorldMap.hasBoundary w = true →
  n ∈ WorldMap.getNeighbours w x y d →
  InBounds w (Vec2.x n) (Vec2.y n).
Proof.
  intros Hb Hin. destruct n as [px py]; simpl.
  apply elem_of_getNeighbours in Hin as [_ Hnw].
  apply outOfBounds_spec.
  destruct (WorldMap.outOfBounds w px py) eqn:E; [|done].
  destruct Hnw. unfold WorldMap.getCell. by rewrite Hb, E.
Qed.

Lemma getNeighbours_in_bounds_witness :
  InBounds example_world 1 0 ∧ InBounds example_world 0 1.
Proof.
  split.
  - refine (getNeighbours_in_bounds example_world 0 0 false (Vec2.mk 1 0)
              eq_refl _).
    apply list_elem_of_here.
  - refine (getNeighbours_in_bounds example_world 0 0 true (Vec2.mk 0 1)
              eq_refl _).
    apply list_elem_of_further, list_elem_of_here.
Defined.

(** X5. [isCellSolid] holds exactly outside the rectangle of a map with
    a boundary and where a [WALL] is recorded inside it (or anywhere, on
    a map without boundary); [isCellType] holds exactly for the cell
    [getCell] returns. *)
Theorem isCellSolid_isCellType_spec w x y :
  (WorldMap.isCellSolid w x y = true
   ↔ (WorldMap.hasBoundary w = true ∧ ¬ InBounds w x y)
     ∨ ((WorldMap.hasBoundary w = false ∨ InBounds w x y)
        ∧ stored w x y = Some WALL)) ∧
  (∀ cell,
     WorldMap.isCellType cell x y w = true ↔ WorldMap.getCell w x y = cell).
Proof.
  split.
  - rewrite isCellSolid_WALL, getCell_stored.
    destruct (WorldMap.hasBoundary w); simpl.
    + destruct (WorldMap.outOfBounds w x y) eqn:E.
      * assert (¬ InBounds w x y).
        { intros Hin%outOfBounds_spec. congruence. }
        split; [by left|done].
      * apply outOfBounds_spec in E. split.
        -- intros H. right. split; [by right|].
           destruct (stored w x y) as [c|]; [by subst|done].
        -- intros [[_ Hn]|[_ ->]]; [by destruct Hn|done].
    + split.
      * intros H. right. split; [by left|].
        destruct (stored w x y) as [c|]; [by subst|done].
      * intros [[Hf _]|[_ ->]]; [done|done].
  - intros cell. unfold WorldMap.isCellType.
    rewrite negb_true_iff, <- not_true_iff_false, cell_neq_spec.
    destruct (decide (WorldMap.getCell w x y = cell)); tauto.
Qed.

(** ** [clearMap] *)

(** X6. After [clearMap] every coordinate reads [EMPTY], or [WALL]
    outside the rectangle of a map with a boundary; both snapshots are
    empty; and a coordinate that held a permanent cell takes a write
    again. *)
Theorem clearMap_resets w :
  (∀ x y,
     WorldMap.getCell (WorldMap.clearMap w) x y
     = if WorldMap.hasBoundary w && WorldMap.outOfBounds w x y
       then WALL else EMPTY) ∧
  (∀ b, WorldMap.mapToNodePairArray b (WorldMap.clearMap w) = []) ∧
  (∀ cell x y,
     WorldMap.hasBoundary w = false ∨ InBounds w x y →
     (WorldMap.putCell cell x y (WorldMap.clearMap w)).1 = cell ∧
     WorldMap.getCell (WorldMap.putCell cell x y (WorldMap.clearMap w)).2 x y
     = cell).
Proof.
  assert (Hget : ∀ x y,
    WorldMap.getCell (WorldMap.clearMap w) x y
    = if WorldMap.hasBoundary w && WorldMap.outOfBounds w x y
      then WALL else EMPTY).
  { intros x y. unfold WorldMap.getCell, WorldMap.outOfBounds; simpl.
    by destruct (_ && _). }
  split; [done|]. split; [done|].
  intros cell x y Hin.
  assert (Hempty : WorldMap.getCell (WorldMap.clearMap w) x y = EMPTY).
  { rewrite Hget. destruct Hin as [->|Hin%outOfBounds_spec]; [done|].
    rewrite Hin. by rewrite andb_false_r. }
  assert (Hnp : ¬ Permanent (WorldMap.getCell (WorldMap.clearMap w) x y)).
  { rewrite Hempty. intros [H|[H|H]]; discriminate H. }
  split; [by apply putCell_accepted_fst|].
  rewrite getCell_putCell.
  destruct (truthy _ _) eqn:E; [by apply truthy_PERMANENT in E|].
  by rewrite !Z.eqb_refl.
Qed.

Lemma clearMap_resets_witness :
  WorldMap.getCell example_world 1 1 = START ∧
  (WorldMap.putCell PATH 1 1 (WorldMap.clearMap example_world)).1 = PATH ∧
  WorldMap.getCell
    (WorldMap.putCell PATH 1 1 (WorldMap.clearMap example_world)).2 1 1
  = PATH.
Proof.
  split; [reflexivity|].
  refine (proj2 (proj2 (clearMap_resets example_world)) PATH 1 1 _).
  right. apply example_world_inside; lia.
Defined.

(** ** Snapshots *)

Lemma filter_flat_map {A B : Type} (P : B → bool) (f : A → list B) l :
  List.filter P (List.flat_map f l)
  = List.flat_map (fun a => List.filter P (f a)) l.
Proof.
  induction l as [|a l IH]; simpl; [done|].
  by rewrite List.filter_app, IH.
Qed.

(** X7. The snapshot that skips empty cells is the full snapshot with
    the [EMPTY] pairs removed, in the same order. *)
Theorem mapToNodePairArray_skip_is_filter w :
  WorldMap.mapToNodePairArray true w
  = List.filter (fun nodePair => cell_neq nodePair.2 EMPTY)
      (WorldMap.mapToNodePairArray false w).
Proof.
  unfold WorldMap.mapToNodePairArray. rewrite filter_flat_map.
  apply flat_map_ext. intros [x col]. rewrite filter_flat_map.
  apply flat_map_ext. intros [y cell]; simpl.
  by destruct (cell_neq cell EMPTY).
Qed.

Lemma mapToNodePairArray_elem_any b w x y c :
  WellFormed w →
  (Vec2.mk x y, c) ∈ WorldMap.mapToNodePairArray b w
  ↔ stored w x y = Some c ∧ (b = true → c ≠ EMPTY).
Proof.
  intros Hwf. destruct b.
  - rewrite mapToNodePairArray_elem by done. tauto.
  - destruct Hwf as [Houter Hinner].
    unfold WorldMap.mapToNodePairArray, stored.
    rewrite list_elem_of_In, in_flat_map. split.
    + intros ([x0 col] & Hcol & Hin).
      apply in_flat_map in Hin as ([y0 cell] & Hcell & Hin). simpl in Hin.
      destruct Hin as [[= -> -> ->]|[]].
      apply list_elem_of_In in Hcol, Hcell.
      rewrite (JsMap_elem_get _ _ _ Houter Hcol).
      by rewrite (JsMap_elem_get _ _ _ (Hinner _ _ Hcol) Hcell).
    + intros [Hst _].
      destruct (JsMap.get x (WorldMap.map w)) as [col|] eqn:Hx; [|done].
      exists (x, col). split.
      * by apply list_elem_of_In, JsMap_get_Some_elem.
      * apply in_flat_map. exists (y, c). split.
        -- by apply list_elem_of_In, JsMap_get_Some_elem.
        -- simpl. by left.
Qed.

Lemma column_pairs_NoDup (keep : CellType → bool) x (col : JsMap.t CellType) :
  JsMap.wf col →
  NoDup (List.map fst
           (List.flat_map
              (fun '(y, cell) =>
                 if keep cell then [(Vec2.mk x y, cell)] else [])
              col)) ∧
  ∀ pos,
    pos ∈ List.map fst
            (List.flat_map
               (fun '(y, cell) =>
                  if keep cell then [(Vec2.mk x y, cell)] else [])
               col) →
    Vec2.x pos = x ∧ Vec2.y pos ∈ JsMap.keys col.
Proof.
  unfold JsMap.wf, JsMap.keys.
  induction col as [|[y cell] col IH]; simpl; intros Hwf.
  { split; [apply NoDup_nil_2|]. intros pos Hin. by apply elem_of_nil in Hin. }
  apply NoDup_cons in Hwf as [Hy Hwf]. destruct (IH Hwf) as [IH1 IH2].
  rewrite List.map_app. split.
  - apply NoDup_app. split_and!; [|intros pos Hhead Hin|done].
    + destruct (keep cell); simpl; [apply NoDup_singleton|apply NoDup_nil_2].
    + destruct (keep cell); simpl in Hhead; [|by apply elem_of_nil in Hhead].
      apply list_elem_of_singleton in Hhead as ->.
      by destruct (IH2 _ Hin) as [_ ?].
  - intros pos [Hin|Hin]%elem_of_app.
    + destruct (keep cell); simpl in Hin; [|by apply elem_of_nil in Hin].
      apply list_elem_of_singleton in Hin as ->. simpl.
      split; [done|apply list_elem_of_here].
    + destruct (IH2 _ Hin) as [? ?]. split; [done|].
      by apply list_elem_of_further.
Qed.

Lemma mapToNodePairArray_NoDup b w :
  WellFormed w →
  NoDup (List.map fst (WorldMap.mapToNodePairArray b w)).
Proof.
  intros [Houter Hinner]. unfold WorldMap.mapToNodePairArray.
  set (keep := fun cell => negb b || cell_neq cell EMPTY).
  assert (Hgoal :
    NoDup (List.map fst
             (List.flat_map
                (fun '(x, col) =>
                   List.flat_map
                     (fun '(y, cell) =>
                        if keep cell then [(Vec2.mk x y, cell)] else [])
                     col)
                (WorldMap.map w))) ∧
    ∀ pos,
      pos ∈ List.map fst
              (List.flat_map
                 (fun '(x, col) =>
                    List.flat_map
                      (fun '(y, cell) =>
                         if keep cell then [(Vec2.mk x y, cell)] else [])
                      col)
                 (WorldMap.map w)) →
      Vec2.x pos ∈ JsMap.keys (WorldMap.map w)); [|by destruct Hgoal].
  unfold JsMap.wf, JsMap.keys in Houter.
  induction (WorldMap.map w) as [|[x col] m IH]; simpl.
  { split; [apply NoDup_nil_2|]. intros pos Hin. by apply elem_of_nil in Hin. }
  simpl in Houter. apply NoDup_cons in Houter as [Hx Houter].
  destruct IH as [IH1 IH2]; [done| |].
  { intros x' col' Hin. apply (Hinner x'). by apply list_elem_of_further. }
  destruct (column_pairs_NoDup keep x col) as [Hc1 Hc2].
  { apply (Hinner x). apply list_elem_of_here. }
  rewrite List.map_app. split.
  - apply NoDup_app. split_and!; [done| |done].
    intros pos Hhead Hin. destruct (Hc2 _ Hhead) as [Hpx _].
    apply IH2 in Hin. by rewrite Hpx in Hin.
  - intros pos [Hin|Hin]%elem_of_app.
    + destruct (Hc2 _ Hin) as [-> _]. apply list_elem_of_here.
    + by apply list_elem_of_further, IH2.
Qed.

(** X8. On a map whose nested [Map]s have distinct keys (as every
    JavaScript [Map] has) the full snapshot lists exactly the recorded
    cells, the skipping one exactly those that are not [EMPTY], and no
    coordinate is listed twice. *)
Theorem mapToNodePairArray_lists_each_cell_once b w :
  WellFormed w →
  (∀ x y c,
     (Vec2.mk x y, c) ∈ WorldMap.mapToNodePairArray b w
     ↔ stored w x y = Some c ∧ (b = true → c ≠ EMPTY)) ∧
  NoDup (List.map fst (WorldMap.mapToNodePairArray b w)).
Proof.
  intros Hwf. split.
  - intros x y c. by apply mapToNodePairArray_elem_any.
  - by apply mapToNodePairArray_NoDup.
Qed.

Lemma WellFormed_example_world : WellFormed example_world.
Proof.
  apply (do_writes_invariant WellFormed).
  - intros c x y s. apply WellFormed_putCell.
  - apply WellFormed_constructor.
Qed.

Lemma mapToNodePairArray_lists_each_cell_once_witness :
  (Vec2.mk 2 3, CALCULATING) ∈ WorldMap.mapToNodePairArray false example_world ∧
  NoDup (List.map fst (WorldMap.mapToNodePairArray false example_world)).
Proof.
  destruct (mapToNodePairArray_lists_each_cell_once false example_world
              WellFormed_example_world) as [H1 H2].
  split; [|exact H2].
  apply (proj2 (H1 2 3 CALCULATING)). split; [reflexivity|discriminate].
Defined.

Lemma StoredInBounds_clearMap w : StoredInBounds (WorldMap.clearMap w).
Proof. intros x y c Hst. discriminate Hst. Qed.

Lemma StoredInBounds_putCell cell x y w :
  StoredInBounds w → StoredInBounds (WorldMap.putCell cell x y w).2.
Proof.
  intros Hw x' y' c.
  destruct (decide (Permanent (WorldMap.getCell w x y))) as [Hp|Hnp].
  { rewrite putCell_rejected by done. apply Hw. }
  rewrite putCell_accepted_stored, putCell_hasBoundary by done.
  unfold InBounds. rewrite putCell_size.
  destruct (Z.eqb_spec x' x) as [->|]; simpl; [|apply Hw].
  destruct (Z.eqb_spec y' y) as [->|]; simpl; [|apply Hw].
  intros _. apply not_Permanent_in_range in Hnp.
  destruct (WorldMap.hasBoundary w); [|by left].
  right. by apply outOfBounds_spec.
Qed.

Lemma getCell_of_stored w x y c :
  StoredInBounds w → stored w x y = Some c → WorldMap.getCell w x y = c.
Proof.
  intros Hw Hst. rewrite getCell_stored, Hst.
  destruct (Hw _ _ _ Hst) as [->|Hin%outOfBounds_spec]; [done|].
  by rewrite Hin, andb_false_r.
Qed.

(** X9. On a map built by any writes after [clearMap], every pair of
    either snapshot reads back through [getCell] as listed. *)
Theorem snapshot_reads_back w0 ops b pos c :
  (pos, c) ∈ WorldMap.mapToNodePairArray b (do_writes ops (WorldMap.clearMap w0)) →
  WorldMap.getCell (do_writes ops (WorldMap.clearMap w0))
    (Vec2.x pos) (Vec2.y pos) = c.
Proof.
  intros Hin. destruct pos as [x y]; simpl.
  assert (Hwf : WellFormed (do_writes ops (WorldMap.clearMap w0))).
  { apply (do_writes_invariant WellFormed).
    - intros c0 x0 y0 s. apply WellFormed_putCell.
    - apply WellFormed_clearMap. }
  assert (Hsb : StoredInBounds (do_writes ops (WorldMap.clearMap w0))).
  { apply (do_writes_invariant StoredInBounds).
    - intros c0 x0 y0 s. apply StoredInBounds_putCell.
    - apply StoredInBounds_clearMap. }
  apply mapToNodePairArray_elem_any in Hin as [Hst _]; [|done].
  by apply getCell_of_stored.
Qed.

Lemma snapshot_reads_back_witness :
  WorldMap.getCell
    (do_writes [Put PATH 3 3; HollowRect WALL 0 0 2 2]
       (WorldMap.clearMap example_world)) 3 3 = PATH.
Proof.
  refine (snapshot_reads_back example_world
            [Put PATH 3 3; HollowRect WALL 0 0 2 2] true (Vec2.mk 3 3) PATH _).
  apply list_elem_of_here.
Defined.

(** ** [draw] *)

Lemma drawMap_bounded target w :
  WorldMap.hasBoundary w = true →
  WorldMap.drawMap target w
  = let offset := if WorldMap.showBounds w then 1 else 0 in
    List.flat_map
      (fun x =>
         List.flat_map
           (fun y =>
              if cell_neq (WorldMap.getCell w x y) EMPTY
              then [WorldMap.drawNodePair target
                      (Vec2.mk x y, WorldMap.getCell w x y)]
              else [])
           (loop_range (0 - offset)
              (Z.to_nat (Vec2.y (WorldMap.size w) + offset - (0 - offset)))))
      (loop_range (0 - offset)
         (Z.to_nat (Vec2.x (WorldMap.size w) + offset - (0 - offset)))).
Proof.
  intros Hb. unfold WorldMap.drawMap. rewrite Hb. cbv zeta.
  rewrite (for_loop_appends
             (fun x =>
                List.flat_map
                  (fun y =>
                     if cell_neq (WorldMap.getCell w x y) EMPTY
                     then [WorldMap.drawNodePair target
                             (Vec2.mk x y, WorldMap.getCell w x y)]
                     else [])
                  (loop_range (0 - (if WorldMap.showBounds w then 1 else 0))
                     (Z.to_nat (Vec2.y (WorldMap.size w)
                                + (if WorldMap.showBounds w then 1 else 0)
                                - (0 - (if WorldMap.showBounds w then 1 else 0))))))).
  - done.
  - intros x l.
    rewrite (for_loop_appends
               (fun y =>
                  if cell_neq (WorldMap.getCell w x y) EMPTY
                  then [WorldMap.drawNodePair target
                          (Vec2.mk x y, WorldMap.getCell w x y)]
                  else [])); [done|].
    intros y l'. destruct (cell_neq _ _); [done|by rewrite app_nil_r].
Qed.

(** X10. What a full redraw paints.  On a map with a boundary [drawMap]
    paints exactly the coordinates of the rectangle, widened by one cell
    on every side when [showBounds] is set, that do not read [EMPTY],
    each with the cell [getCell] returns (so the [WALL] frame is
    painted); on a map without boundary it paints exactly the recorded
    cells that are not [EMPTY]. *)
Theorem drawMap_paints target w x y c :
  WellFormed w →
  WorldMap.drawNodePair target (Vec2.mk x y, c) ∈ WorldMap.drawMap target w
  ↔ (WorldMap.hasBoundary w = true →
     let offset := if WorldMap.showBounds w then 1 else 0 in
     - offset ≤ x < Vec2.x (WorldMap.size w) + offset ∧
     - offset ≤ y < Vec2.y (WorldMap.size w) + offset) ∧
    WorldMap.getCell w x y = c ∧ c ≠ EMPTY.
Proof.
  intros Hwf. destruct (WorldMap.hasBoundary w) eqn:Hb.
  - rewrite drawMap_bounded by done. cbv zeta.
    set (offset := if WorldMap.showBounds w then 1 else 0).
    rewrite list_elem_of_In, in_flat_map. split.
    + intros (x0 & Hx%list_elem_of_In%elem_of_loop_range & Hin).
      apply in_flat_map in Hin
        as (y0 & Hy%list_elem_of_In%elem_of_loop_range & Hin).
      destruct (cell_neq _ _) eqn:Hne; [|done].
      destruct Hin as [[= -> -> <-]|[]].
      apply cell_neq_spec in Hne. split_and!; [intros _; lia|done|done].
    + intros (Hrange & <- & Hne). specialize (Hrange eq_refl) as [Hx Hy].
      exists x. split; [apply list_elem_of_In, elem_of_loop_range; lia|].
      apply in_flat_map. exists y.
      split; [apply list_elem_of_In, elem_of_loop_range; lia|].
      apply cell_neq_spec in Hne. rewrite Hne. by left.
  - unfold WorldMap.drawMap. rewrite Hb.
    rewrite list_elem_of_In, in_map_iff. split.
    + intros ([pos c'] & [= -> ->] & Hin%list_elem_of_In).
      apply mapToNodePairArray_elem in Hin as [Hst Hne]; [|done].
      split_and!; [done| |done].
      by rewrite getCell_stored, Hb, Hst.
    + intros (_ & Hget & Hne). exists (Vec2.mk x y, c). split; [done|].
      apply list_elem_of_In, mapToNodePairArray_elem; [done|].
      split; [|done]. rewrite getCell_stored, Hb in Hget. simpl in Hget.
      destruct (stored w x y) as [c'|]; [by subst|by subst].
Qed.

Lemma example_world_showBounds : WorldMap.showBounds example_world = true.
Proof. reflexivity. Qed.

Lemma drawMap_paints_witness :
  WorldMap.drawNodePair WorldMap.onto_buffer (Vec2.mk (-1) 5, WALL)
  ∈ WorldMap.drawMap WorldMap.onto_buffer example_world ∧
  WorldMap.drawNodePair WorldMap.onto_buffer (Vec2.mk 1 1, START)
  ∈ WorldMap.drawMap WorldMap.onto_buffer example_world.
Proof.
  split.
  - apply (proj2 (drawMap_paints WorldMap.onto_buffer example_world (-1) 5 WALL
                    WellFormed_example_world)).
    split; [|split; [reflexivity|discriminate]].
    intros _. cbv zeta.
    rewrite example_world_size, example_world_showBounds. simpl. lia.
  - apply (proj2 (drawMap_paints WorldMap.onto_buffer example_world 1 1 START
                    WellFormed_example_world)).
    split; [|split; [reflexivity|discriminate]].
    intros _. cbv zeta.
    rewrite example_world_size, example_world_showBounds. simpl. lia.
Defined.

Lemma drawChangedCells_app l1 l2 calls1 :
  WorldMap.drawChangedCells l1 = Some calls1 →
  WorldMap.drawChangedCells (l1 ++ l2)
  = match WorldMap.drawChangedCells l2 with
    | Some calls2 => Some (calls1 ++ calls2)
    | None => None
    end.
Proof.
  remember (length l1) as n eqn:Hn.
  revert l1 calls1 Hn. induction n as [n IH] using lt_wf_ind.
  intros l1 calls1 Hn H.
  destruct l1 as [|[c|?] [|[?|x] [|[?|y] rest]]]; simpl in H; try done.
  - injection H as <-. simpl. by destruct (WorldMap.drawChangedCells l2).
  - destruct (WorldMap.drawChangedCells rest) as [calls|] eqn:Hrest; [|done].
    injection H as <-. simpl.
    rewrite (IH (length rest) ltac:(simpl in Hn; lia) rest calls eq_refl Hrest).
    by destruct (WorldMap.drawChangedCells l2).
Qed.

Lemma last_painted_snoc calls target pos c x y :
  last_painted (calls ++ [WorldMap.drawNodePair target (pos, c)]) x y
  = if (Vec2.x pos =? x) && (Vec2.y pos =? y) then Some c
    else last_painted calls x y.
Proof.
  induction calls as [|[t [pos' c']|] calls IH]; simpl.
  - done.
  - rewrite IH. destruct (_ && _); [done|].
    by destruct (last_painted calls x y).
  - done.
Qed.

Lemma putCell_changedCells cell x y w :
  WorldMap.internalFrameBuffer (WorldMap.putCell cell x y w).2
  = WorldMap.internalFrameBuffer w ∧
  WorldMap.changedCells (WorldMap.putCell cell x y w).2
  = if truthy PERMANENT_CELL_TYPES (WorldMap.getCell w x y)
    then WorldMap.changedCells w
    else match WorldMap.internalFrameBuffer w with
         | Some _ => WorldMap.changedCells w ++ triple cell x y
         | None => WorldMap.changedCells w
         end.
Proof. unfold WorldMap.putCell. by destruct (truthy _ _). Qed.

(** What [changedCells] holds after writes on a freshly drawn map. *)
Lemma changedCells_after_writes w ops :
  WorldMap.internalFrameBuffer w = Some false →
  WorldMap.changedCells w = [] →
  WorldMap.internalFrameBuffer (do_writes ops w) = Some false ∧
  ∃ calls,
    WorldMap.drawChangedCells (WorldMap.changedCells (do_writes ops w))
    = Some calls ∧
    Forall (fun call => ∃ nodePair,
              call = WorldMap.drawNodePair WorldMap.onto_buffer nodePair)
      calls ∧
    ∀ x y,
      WorldMap.getCell (do_writes ops w) x y
      = match last_painted calls x y with
        | Some c => c
        | None => WorldMap.getCell w x y
        end.
Proof.
  intros Hbuf Hcc.
  apply (do_writes_invariant
           (fun s =>
              WorldMap.internalFrameBuffer s = Some false ∧
              ∃ calls,
                WorldMap.drawChangedCells (WorldMap.changedCells s)
                = Some calls ∧
                Forall (fun call => ∃ nodePair,
                          call = WorldMap.drawNodePair WorldMap.onto_buffer
                                   nodePair) calls ∧
                ∀ x y,
                  WorldMap.getCell s x y
                  = match last_painted calls x y with
                    | Some c => c
                    | None => WorldMap.getCell w x y
                    end)).
  - intros c x y s (Hb & calls & Hcalls & Hall & Hget).
    destruct (putCell_changedCells c x y s) as [Hb' Hcc'].
    rewrite Hb', Hcc', Hb. split; [done|].
    destruct (truthy PERMANENT_CELL_TYPES (WorldMap.getCell s x y)) eqn:E.
    + exists calls. split_and!; [done..|].
      intros x' y'. by rewrite getCell_putCell, E.
    + exists (calls ++ [WorldMap.drawNodePair WorldMap.onto_buffer
                          (Vec2.mk x y, c)]).
      split_and!.
      * by rewrite (drawChangedCells_app _ _ _ Hcalls).
      * apply Forall_app. split; [done|]. apply Forall_singleton. by eexists.
      * intros x' y'. rewrite getCell_putCell, E, last_painted_snoc. simpl.
        rewrite (Z.eqb_sym x x'), (Z.eqb_sym y y').
        destruct (_ && _); [done|apply Hget].
  - split; [done|]. exists []. rewrite Hcc. by split_and!.
Qed.

(** X11. Between two draws of a map that has a frame buffer: after any
    writes, the second [draw] paints onto the buffer only, the colour it
    paints last at a coordinate is the cell that coordinate now reads,
    and a coordinate it does not paint reads what it read at the first
    draw; it then copies the buffer and leaves [changedCells] empty and
    the map as it is. *)
Theorem draw_repaints_what_changed w calls0 w1 ops :
  WorldMap.draw w = Some (calls0, w1) →
  WorldMap.internalFrameBuffer w ≠ None →
  ∃ calls w2,
    WorldMap.draw (do_writes ops w1)
    = Some (calls ++ [WorldMap.drawImage], w2) ∧
    Forall (fun call => ∃ nodePair,
              call = WorldMap.drawNodePair WorldMap.onto_buffer nodePair)
      calls ∧
    (∀ x y,
       WorldMap.getCell (do_writes ops w1) x y
       = match last_painted calls x y with
         | Some c => c
         | None => WorldMap.getCell w x y
         end) ∧
    WorldMap.map w2 = WorldMap.map (do_writes ops w1) ∧
    WorldMap.changedCells w2 = [].
Proof.
  intros Hdraw Hbuf. unfold WorldMap.draw in Hdraw.
  destruct (WorldMap.internalFrameBuffer w) as [isDirty|] eqn:Hb; [|done].
  destruct (if isDirty then _ else _) as [calls1|]; [|done].
  injection Hdraw as _ <-.
  set (w1 := WorldMap.mk _ _ _ _ _ _).
  destruct (changedCells_after_writes w1 ops eq_refl eq_refl)
    as (Hb2 & calls & Hcalls & Hall & Hget).
  exists calls. eexists. unfold WorldMap.draw at 1. rewrite Hb2, Hcalls.
  split_and!; [reflexivity|done| |done|done].
  intros x y. rewrite Hget. destruct (last_painted calls x y); [done|].
  apply Mirror_getCell. by split_and!.
Qed.

Lemma draw_repaints_what_changed_witness :
  ∃ calls w2,
    WorldMap.draw
      (do_writes [Put CALCULATING 0 0; Put PATH 1 1; Put CALCULATED 0 0]
         (WorldMap.mk (WorldMap.size example_world) (WorldMap.map example_world)
            true true (Some false) []))
    = Some (calls ++ [WorldMap.drawImage], w2) ∧
    WorldMap.changedCells w2 = [].
Proof.
  assert (Hdraw :
    WorldMap.draw example_world
    = Some ([WorldMap.drawNodePair WorldMap.onto_buffer (Vec2.mk 1 1, START);
             WorldMap.drawNodePair WorldMap.onto_buffer
               (Vec2.mk 2 3, CALCULATING);
             WorldMap.drawImage],
            WorldMap.mk (WorldMap.size example_world)
              (WorldMap.map example_world) true true (Some false) [])).
  { reflexivity. }
  destruct (draw_repaints_what_changed example_world _ _
              [Put CALCULATING 0 0; Put PATH 1 1; Put CALCULATED 0 0]
              Hdraw ltac:(discriminate))
    as (calls & w2 & H1 & _ & _ & _ & H2).
  exists calls, w2. exact (conj H1 H2).
Defined.

(** ** The worker-side map, further *)

Lemma worker_hollowRect_cells cell x y w h p :
  WorkerWorldMap.hollowRect cell x y w h p
  = fold_left (fun s '(a, b) => (WorkerWorldMap.putCell cell a b s).2)
      (hollowRect_cells x y w h) p.
Proof.
  unfold WorkerWorldMap.hollowRect.
  by rewrite (hollowRect_with_cells
                (fun c a b s => (WorkerWorldMap.putCell c a b s).2)).
Qed.

(** X12. The override only adds reporting: after any writes the map of
    a worker-side map is the map a plain [WorldMap] has after the same
    writes, whatever [alwaysUpdate] and [maxCellQueue] are, and these
    two settings are never changed. *)
Theorem worker_map_is_plain_map ops p :
  WorkerWorldMap.base (worker_do_writes ops p)
  = do_writes ops (WorkerWorldMap.base p) ∧
  WorkerWorldMap.alwaysUpdate (worker_do_writes ops p)
  = WorkerWorldMap.alwaysUpdate p ∧
  WorkerWorldMap.maxCellQueue (worker_do_writes ops p)
  = WorkerWorldMap.maxCellQueue p.
Proof.
  unfold worker_do_writes, do_writes. revert p.
  induction ops as [|op ops IH]; intros p; simpl; [done|].
  assert (Hput : ∀ c x y q,
    WorkerWorldMap.base (WorkerWorldMap.putCell c x y q).2
    = (WorldMap.putCell c x y (WorkerWorldMap.base q)).2 ∧
    WorkerWorldMap.alwaysUpdate (WorkerWorldMap.putCell c x y q).2
    = WorkerWorldMap.alwaysUpdate q ∧
    WorkerWorldMap.maxCellQueue (WorkerWorldMap.putCell c x y q).2
    = WorkerWorldMap.maxCellQueue q).
  { intros c x y q.
    by destruct (worker_putCell_unfold c x y q) as (_ & ? & ? & ? & _). }
  assert (Hstep :
    WorkerWorldMap.base (worker_do_write op p)
    = do_write op (WorkerWorldMap.base p) ∧
    WorkerWorldMap.alwaysUpdate (worker_do_write op p)
    = WorkerWorldMap.alwaysUpdate p ∧
    WorkerWorldMap.maxCellQueue (worker_do_write op p)
    = WorkerWorldMap.maxCellQueue p).
  { destruct op as [cell x y|cell x y w h]; simpl; [apply Hput|].
    unfold WorkerWorldMap.hollowRect, WorldMap.hollowRect.
    apply (hollowRect_with_related
             (fun q b =>
                WorkerWorldMap.base q = b ∧
                WorkerWorldMap.alwaysUpdate q = WorkerWorldMap.alwaysUpdate p ∧
                WorkerWorldMap.maxCellQueue q = WorkerWorldMap.maxCellQueue p));
      [|done].
    intros a b q wm (<- & <- & <-). apply Hput. }
  destruct Hstep as (Hb & Hau & Hmax). destruct (IH (worker_do_write op p))
    as (-> & -> & ->). by rewrite Hb, Hau, Hmax.
Qed.

Lemma reported_putCell c x y p :
  (WorkerWorldMap.alwaysUpdate p = true → WorkerWorldMap.cellQueue p = []) →
  reported (WorkerWorldMap.putCell c x y p).2 = reported p ++ triple c x y ∧
  (WorkerWorldMap.alwaysUpdate (WorkerWorldMap.putCell c x y p).2 = true →
   WorkerWorldMap.cellQueue (WorkerWorldMap.putCell c x y p).2 = []).
Proof.
  intros Hau. unfold reported.
  destruct (worker_putCell_unfold c x y p) as (_ & _ & Hau' & _ & Hev).
  simpl in Hau', Hev. rewrite Hau'.
  destruct (WorkerWorldMap.alwaysUpdate p) eqn:E.
  - destruct Hev as [-> ->]. rewrite (Hau eq_refl).
    rewrite cells_added_batches_snoc, concat_app. simpl.
    by rewrite !app_nil_r.
  - split; [|done]. destruct (_ >=? _); destruct Hev as [-> ->].
    + rewrite cells_added_batches_snoc, concat_app. simpl.
      by rewrite !app_nil_r, app_assoc.
    + by rewrite app_assoc.
Qed.

(** X13. Nothing is dropped, repeated or reordered: after any writes the
    payloads posted so far followed by the pending batch are what they
    were before followed by the triple of every write, in the order of
    the writes; after [sendCellQueue] all of it has been posted and
    nothing is pending. *)
Theorem worker_reports_every_write ops p :
  (WorkerWorldMap.alwaysUpdate p = true → WorkerWorldMap.cellQueue p = []) →
  reported (worker_do_writes ops p)
  = reported p ++ List.flat_map write_triples ops ∧
  concat (cells_added_batches
            (WorkerWorldMap.posted
               (WorkerWorldMap.sendCellQueue (worker_do_writes ops p))))
  = reported p ++ List.flat_map write_triples ops ∧
  WorkerWorldMap.cellQueue
    (WorkerWorldMap.sendCellQueue (worker_do_writes ops p)) = [].
Proof.
  intros Hau.
  assert (Hcells : ∀ cell cells q,
    (WorkerWorldMap.alwaysUpdate q = true → WorkerWorldMap.cellQueue q = []) →
    let q' := fold_left
                (fun s '(a, b) => (WorkerWorldMap.putCell cell a b s).2)
                cells q in
    reported q'
    = reported q ++ List.flat_map (fun '(a, b) => triple cell a b) cells ∧
    (WorkerWorldMap.alwaysUpdate q' = true → WorkerWorldMap.cellQueue q' = [])).
  { intros cell cells. induction cells as [|[a b] cells IH]; intros q Hq.
    - simpl. by rewrite app_nil_r.
    - cbn [fold_left List.flat_map].
      destruct (reported_putCell cell a b q Hq) as [Hr Hq'].
      destruct (IH _ Hq') as [IH1 IH2]. split; [|done].
      by rewrite IH1, Hr, <- app_assoc. }
  assert (Hall :
    reported (worker_do_writes ops p)
    = reported p ++ List.flat_map write_triples ops ∧
    (WorkerWorldMap.alwaysUpdate (worker_do_writes ops p) = true →
     WorkerWorldMap.cellQueue (worker_do_writes ops p) = [])).
  { unfold worker_do_writes. revert p Hau.
    induction ops as [|op ops IH]; intros p Hau.
    - simpl. by rewrite app_nil_r.
    - cbn [fold_left List.flat_map].
      assert (Hstep :
        reported (worker_do_write op p) = reported p ++ write_triples op ∧
        (WorkerWorldMap.alwaysUpdate (worker_do_write op p) = true →
         WorkerWorldMap.cellQueue (worker_do_write op p) = [])).
      { destruct op as [cell x y|cell x y w h]; simpl.
        - by apply reported_putCell.
        - rewrite worker_hollowRect_cells. by apply Hcells. }
      destruct Hstep as [Hr Hq]. destruct (IH _ Hq) as [IH1 IH2].
      split; [|done]. by rewrite IH1, Hr, <- app_assoc. }
  destruct Hall as [Hr _]. split; [done|]. split; [|done].
  rewrite <- Hr. unfold reported. simpl.
  rewrite cells_added_batches_snoc, concat_app. simpl.
  by rewrite !app_nil_r.
Qed.

Lemma worker_reports_every_write_witness :
  reported
    (worker_do_writes [Put PATH 1 1; HollowRect WALL 0 0 2 1] example_worker)
  = reported example_worker
    ++ List.flat_map write_triples [Put PATH 1 1; HollowRect WALL 0 0 2 1].
Proof.
  refine (proj1 (worker_reports_every_write
                   [Put PATH 1 1; HollowRect WALL 0 0 2 1] example_worker _)).
  discriminate.
Defined.

(** X14. Threshold mode with [maxCellQueue = k >= 1], nothing pending
    and nothing posted: [n] writes followed by [sendCellQueue] post
    [n / q] batches of [q] cells each and then one batch of [n mod q]
    cells, where [q] is [k / 3] rounded up. *)
Theorem threshold_run_batches k ps p :
  1 ≤ k →
  WorkerWorldMap.alwaysUpdate p = false →
  WorkerWorldMap.maxCellQueue p = k →
  WorkerWorldMap.cellQueue p = [] →
  WorkerWorldMap.posted p = [] →
  let q := (k + 2) / 3 in
  let n := Z.of_nat (length ps) in
  ∃ batches last,
    WorkerWorldMap.posted (WorkerWorldMap.sendCellQueue (worker_puts ps p))
    = batches ++ [map_add_cells last] ∧
    Z.of_nat (length batches) = n / q ∧
    Forall (is_batch_of q) batches ∧
    Z.of_nat (length last) = 3 * (n mod q).
Proof.
  intros Hk Hau Hmax Hq Hp q n.
  destruct (threshold_batches k ps p Hk Hau Hmax Hq Hp)
    as (_ & _ & Hlen & Hall & Hpend).
  exists (WorkerWorldMap.posted (worker_puts ps p)),
    (WorkerWorldMap.cellQueue (worker_puts ps p)).
  by split_and!.
Qed.

Lemma threshold_run_batches_witness :
  ∃ batches last,
    WorkerWorldMap.posted
      (WorkerWorldMap.sendCellQueue
         (worker_puts [(PATH, 0, 0); (PATH, 1, 0); (PATH, 2, 0)]
            (WorkerWorldMap.constructor 5 5 true false 4)))
    = batches ++ [map_add_cells last] ∧
    Z.of_nat (length batches) = 3 / ((4 + 2) / 3) ∧
    Z.of_nat (length last) = 3 * (3 mod ((4 + 2) / 3)).
Proof.
  destruct (threshold_run_batches 4 [(PATH, 0, 0); (PATH, 1, 0); (PATH, 2, 0)]
              (WorkerWorldMap.constructor 5 5 true false 4)
              ltac:(lia) eq_refl eq_refl eq_refl eq_refl)
    as (batches & last & H1 & H2 & _ & H3).
  exists batches, last. exact (conj H1 (conj H2 H3)).
Defined.

(** X15. In always-update mode, and in threshold mode when
    [maxCellQueue] is 3 or less (0 is the constructor's default), every
    write is posted at once as a message of its own and nothing is ever
    pending. *)
Theorem worker_posts_each_write_alone ps p :
  WorkerWorldMap.alwaysUpdate p = true ∨ WorkerWorldMap.maxCellQueue p ≤ 3 →
  WorkerWorldMap.cellQueue p = [] →
  WorkerWorldMap.posted (worker_puts ps p)
  = WorkerWorldMap.posted p
    ++ List.map (fun '(c, x, y) => map_add_cells (triple c x y)) ps ∧
  WorkerWorldMap.cellQueue (worker_puts ps p) = [].
Proof.
  unfold worker_puts. revert p.
  induction ps as [|[[c x] y] ps IH]; intros p Hmode Hq; simpl.
  { by rewrite app_nil_r. }
  destruct (worker_putCell_unfold c x y p) as (_ & _ & Hau & Hmax & Hev).
  simpl in Hau, Hmax, Hev.
  assert (Hone :
    WorkerWorldMap.posted (WorkerWorldMap.putCell c x y p).2
    = WorkerWorldMap.posted p ++ [map_add_cells (triple c x y)] ∧
    WorkerWorldMap.cellQueue (WorkerWorldMap.putCell c x y p).2 = []).
  { destruct (WorkerWorldMap.alwaysUpdate p) eqn:E.
    - destruct Hev as [-> ->]. by rewrite Hq.
    - destruct Hmode as [?|Hsmall]; [done|].
      rewrite Hq in Hev. simpl in Hev.
      change (Z.of_nat 0 + 3) with 3 in Hev.
      destruct (Z.geb_spec 3 (WorkerWorldMap.maxCellQueue p)); [exact Hev|lia]. }
  destruct Hone as [Hp1 Hq1].
  destruct (IH (WorkerWorldMap.putCell c x y p).2) as [-> ->];
    [by rewrite Hau, Hmax|done|].
  by rewrite Hp1, <- app_assoc.
Qed.

Lemma worker_posts_each_write_alone_witness :
  WorkerWorldMap.posted
    (worker_puts [(PATH, 0, 0); (WALL, 1, 0)]
       (WorkerWorldMap.constructor 5 5 true false 0))
  = [map_add_cells (triple PATH 0 0); map_add_cells (triple WALL 1 0)].
Proof.
  refine (proj1 (worker_posts_each_write_alone [(PATH, 0, 0); (WALL, 1, 0)]
                   (WorkerWorldMap.constructor 5 5 true false 0) _ eq_refl)).
  right. simpl. lia.
Defined.

(** ** The listener's loop *)

(** X16. The listener's loop undoes the flattening: run on the
    concatenated triples of any list of cells, it consumes all of them
    and performs exactly one [putCell] per cell, in order. *)
Theorem add_cells_of_triples ps w :
  Script.add_cells (List.flat_map (fun '(c, x, y) => triple c x y) ps) w
  = Some (fold_left (fun s '(c, x, y) => (WorldMap.putCell c x y s).2) ps w).
Proof.
  revert w. induction ps as [|[[c x] y] ps IH]; intros w; simpl; [done|].
  apply IH.
Qed.

(** ** The page, further *)

(** X17. While unlocked, every call of [generatePath] posts one more
    request with the current size, boundary flag, delay, queue length
    and algorithm, and changes nothing else; in particular it does not
    lock, so [n] calls made before [lock_gen] arrives post [n]
    requests. *)
Theorem generatePath_unlocked_posts_each_time s n :
  Script.isPathGenLocked s = false →
  Nat.iter n Script.generatePath s
  = Script.mk (Script.actionDelay s) (Script.WORLD_MAP s)
      (Script.currentAlgorithm s) false
      (Script.toPathGenerator s ++ replicate n (start_request s)).
Proof.
  intros Hl. induction n as [|n IH].
  - simpl. rewrite app_nil_r. destruct s; simpl in *. by subst.
  - rewrite replicate_S_end.
    change (Nat.iter (Datatypes.S n) Script.generatePath s)
      with (Script.generatePath (Nat.iter n Script.generatePath s)).
    rewrite IH.
    unfold Script.generatePath; simpl. by rewrite <- app_assoc.
Qed.

Lemma generatePath_unlocked_posts_each_time_witness :
  Script.toPathGenerator (Nat.iter 2 Script.generatePath Script.initial)
  = [start_request Script.initial; start_request Script.initial].
Proof.
  exact (f_equal Script.toPathGenerator
           (generatePath_unlocked_posts_each_time Script.initial 2 eq_refl)).
Defined.

Lemma add_cells_invariant (P : WorldMap.t → Prop) :
  (∀ c x y s, P s → P (WorldMap.putCell c x y s).2) →
  ∀ args w w', Script.add_cells args w = Some w' → P w → P w'.
Proof.
  intros Hput args. remember (length args) as n eqn:Hn.
  revert args Hn. induction n as [n IH] using lt_wf_ind.
  intros args Hn w w' H Hw.
  destruct args as [|[c|?] [|[?|x] [|[?|y] rest]]]; simpl in H; try done.
  - by injection H as <-.
  - apply (IH (length rest) ltac:(simpl in Hn; lia) rest eq_refl _ _ H).
    by apply Hput.
Qed.

Lemma valid_delay_changeActionDelay d s :
  valid_delay (Script.actionDelay s) = true →
  valid_delay (Script.actionDelay (Script.changeActionDelay d s)) = true.
Proof.
  intros Hs. unfold Script.changeActionDelay.
  destruct (Script.isPathGenLocked s); simpl; [done|].
  destruct (PrimFloat.is_nan d) eqn:Hnan; simpl; [done|].
  destruct (PrimFloat.ltb Script.MAX_ACTION_TIME d) eqn:Hmax; simpl; [done|].
  destruct (PrimFloat.leb d 0) eqn:Hpos; simpl; [done|].
  by rewrite Hnan, Hpos, Hmax.
Qed.

Lemma page_invariant evs s :
  handle_all evs Script.initial = Some s →
  page_settings_ok s ∧
  StoredInBounds (Script.WORLD_MAP s) ∧
  Forall request_ok (Script.toPathGenerator s).
Proof.
  unfold handle_all.
  assert (Hgen : ∀ s0,
    (page_settings_ok s0 ∧ StoredInBounds (Script.WORLD_MAP s0) ∧
     Forall request_ok (Script.toPathGenerator s0)) →
    fold_left
      (fun acc ev => match acc with Some s => handle ev s | None => None end)
      evs (Some s0) = Some s →
    page_settings_ok s ∧ StoredInBounds (Script.WORLD_MAP s) ∧
    Forall request_ok (Script.toPathGenerator s)).
  { induction evs as [|ev evs IH]; simpl; intros s0 H0 Hrun.
    { by injection Hrun as <-. }
    destruct (handle ev s0) as [s1|] eqn:Hstep;
      [|by rewrite handle_all_None in Hrun].
    apply (IH s1); [|done]. clear IH Hrun.
    destruct H0 as ((Hx & Hy & Hb & Hd) & Hsb & Hreq).
    destruct ev as [|msg|v axis|d]; simpl in Hstep.
    - injection Hstep as <-. unfold Script.generatePath.
      destruct (Script.isPathGenLocked s0); [done|]. simpl.
      split_and!; [done..|].
      apply Forall_app. split; [done|]. apply Forall_singleton.
      unfold request_ok; simpl. split_and!; first [done | lia].
    - destruct msg as [args| | |]; simpl in Hstep.
      + destruct (Script.add_cells args (Script.WORLD_MAP s0)) as [w'|] eqn:Ha;
          [|done].
        injection Hstep as <-. simpl.
        pose proof (add_cells_invariant
          (fun w => WorldMap.size w = WorldMap.size (Script.WORLD_MAP s0) ∧
                    WorldMap.hasBoundary w
                    = WorldMap.hasBoundary (Script.WORLD_MAP s0) ∧
                    StoredInBounds w)) as Hinv.
        destruct (Hinv ltac:(intros c x y w0 (<- & <- & ?);
                        rewrite putCell_size, putCell_hasBoundary;
                        split_and!; [done..|by apply StoredInBounds_putCell])
                    _ _ _ Ha ltac:(done)) as (Hsz & Hbb & Hsb').
        unfold page_settings_ok; simpl. rewrite Hsz, Hbb.
        split_and!; first [done | lia].
      + injection Hstep as <-. simpl.
        split; [|split; [apply StoredInBounds_clearMap|done]].
        unfold page_settings_ok; simpl. split_and!; first [done | lia].
      + injection Hstep as <-.
        split; [|by split]. unfold page_settings_ok; simpl.
        split_and!; first [done | lia].
      + injection Hstep as <-.
        split; [|by split]. unfold page_settings_ok; simpl.
        split_and!; first [done | lia].
    - injection Hstep as <-. unfold Script.changeWorldSize.
      destruct v as [n|]; [|split; [|by split]; unfold page_settings_ok;
                              split_and!; first [done | lia]].
      destruct (Script.isPathGenLocked s0); simpl;
        [|destruct (Z.ltb_spec n Script.MIN_WORLD_SIZE); simpl;
          [|destruct (Z.gtb_spec n Script.MAX_WORLD_SIZE); simpl]].
      + split; [|by split]. unfold page_settings_ok.
        split_and!; first [done | lia].
      + split; [|by split]. unfold page_settings_ok.
        split_and!; first [done | lia].
      + split; [|by split]. unfold page_settings_ok.
        split_and!; first [done | lia].
      + split; [|split; [intros x y c Hst; discriminate Hst|done]].
        unfold page_settings_ok; destruct axis; simpl; split_and!;
          first [done | lia].
    - injection Hstep as <-.
      pose proof (valid_delay_changeActionDelay d s0 Hd) as Hd'.
      unfold Script.changeActionDelay in *.
      destruct (_ || _); [|destruct (PrimFloat.leb d 0)];
        (split; [|by split]); unfold page_settings_ok; simpl in *;
        split_and!; first [done | lia]. }
  apply Hgen. split_and!.
  - unfold page_settings_ok. split_and!; try reflexivity; simpl;
      unfold Script.MIN_WORLD_SIZE, Script.MAX_WORLD_SIZE; lia.
  - intros x y c Hst. discriminate Hst.
  - apply Forall_nil_2.
Qed.

(** X18. Whatever happens on the page (restart keys, worker messages,
    size and delay inputs), starting from the script's initial state:
    both sides of the world stay between [MIN_WORLD_SIZE] and
    [MAX_WORLD_SIZE], the world keeps its boundary, the delay is absent
    or a number above 0 and not above [MAX_ACTION_TIME], and every
    request posted to the path generator carries such settings together
    with [MAX_CELL_QUEUE]. *)
Theorem page_settings_stay_in_range evs s :
  handle_all evs Script.initial = Some s →
  page_settings_ok s ∧ Forall request_ok (Script.toPathGenerator s).
Proof.
  intros Hrun. destruct (page_invariant evs s Hrun) as (H1 & _ & H2).
  by split.
Qed.

Lemma page_settings_stay_in_range_witness :
  ∃ s,
    handle_all [WorldSizeInput (Some 20) Script.axis_x;
                ActionDelayInput 5%float; RestartKey;
                WorldSizeInput (Some 500) Script.axis_y] Script.initial
    = Some s ∧
    page_settings_ok s ∧ Forall request_ok (Script.toPathGenerator s).
Proof.
  eexists. split; [reflexivity|].
  refine (page_settings_stay_in_range
            [WorldSizeInput (Some 20) Script.axis_x;
             ActionDelayInput 5%float; RestartKey;
             WorldSizeInput (Some 500) Script.axis_y] _ _).
  reflexivity.
Defined.

(** X19. Whatever happens on the page, starting from the script's
    initial state, every cell its map records lies inside the current
    rectangle, and reads back through [getCell] as recorded: a resize
    never leaves cells behind outside the new size. *)
Theorem page_cells_stay_in_bounds evs s x y c :
  handle_all evs Script.initial = Some s →
  stored (Script.WORLD_MAP s) x y = Some c →
  InBounds (Script.WORLD_MAP s) x y ∧
  WorldMap.getCell (Script.WORLD_MAP s) x y = c.
Proof.
  intros Hrun Hst.
  destruct (page_invariant evs s Hrun) as ((_ & _ & Hb & _) & Hsb & _).
  split; [|by apply getCell_of_stored].
  destruct (Hsb _ _ _ Hst) as [Hf|?]; [congruence|done].
Qed.

Lemma page_cells_stay_in_bounds_witness :
  ∃ s,
    handle_all [Received (map_add_cells (triple PATH 20 3));
                WorldSizeInput (Some 25) Script.axis_x;
                Received (map_add_cells (triple GOAL 24 3))] Script.initial
    = Some s ∧
    InBounds (Script.WORLD_MAP s) 24 3 ∧
    WorldMap.getCell (Script.WORLD_MAP s) 24 3 = GOAL.
Proof.
  eexists. split; [reflexivity|].
  refine (page_cells_stay_in_bounds
            [Received (map_add_cells (triple PATH 20 3));
             WorldSizeInput (Some 25) Script.axis_x;
             Received (map_add_cells (triple GOAL 24 3))] _ 24 3 GOAL _ _);
    reflexivity.
Defined.

(** ** [changeAlgorithm] *)

Lemma find_longName_Some value names i k :
  Script.find_longName value i names = Some k →
  ∃ j, k = (i + j)%nat ∧ names !! j = Some value ∧
       ∀ j', (j' < j)%nat → names !! j' ≠ Some value.
Proof.
  revert i. induction names as [|name names IH]; intros i; simpl; [done|].
  destruct (String.eqb_spec name value) as [->|Hne].
  - intros [= <-]. exists 0%nat. split_and!; [lia|done|lia].
  - intros Hfind. destruct (IH _ Hfind) as (j & -> & Hj & Hfirst).
    exists (Datatypes.S j). split_and!; [lia|done|].
    intros [|j'] Hlt; simpl; [congruence|]. apply Hfirst. lia.
Qed.

Lemma find_longName_None value names i :
  Script.find_longName value i names = None ↔ value ∉ names.
Proof.
  revert i. induction names as [|name names IH]; intros i; simpl.
  - split; [intros _; apply not_elem_of_nil|done].
  - rewrite not_elem_of_cons.
    destruct (String.eqb_spec name value) as [->|Hne].
    + split; [done|]. by intros [? _].
    + rewrite IH. split; [by split|by intros [_ ?]].
Qed.

(** X20. [changeAlgorithm] selects the index of the first algorithm
    whose [longName] is the given value, and leaves the selection as it
    is when there is none.  It changes nothing else, and it does so
    whether or not the page is locked. *)
Theorem changeAlgorithm_selects_first names value s :
  let s' := Script.changeAlgorithm names value s in
  (Script.actionDelay s' = Script.actionDelay s ∧
   Script.WORLD_MAP s' = Script.WORLD_MAP s ∧
   Script.isPathGenLocked s' = Script.isPathGenLocked s ∧
   Script.toPathGenerator s' = Script.toPathGenerator s) ∧
  (value ∈ names →
   ∃ i, Script.currentAlgorithm s' = Script.algorithm_index i ∧
        names !! i = Some value ∧
        ∀ j, (j < i)%nat → names !! j ≠ Some value) ∧
  (value ∉ names → s' = s).
Proof.
  unfold Script.changeAlgorithm.
  destruct (Script.find_longName value 0 names) as [k|] eqn:Hfind; simpl.
  - split; [done|]. split.
    + intros _. apply find_longName_Some in Hfind as (j & -> & Hj & Hfirst).
      by exists j.
    + intros Hnot%(find_longName_None value names 0%nat). congruence.
  - split; [done|]. split; [|done].
    intros Hin. by apply find_longName_None in Hfind.
Qed.

Lemma changeAlgorithm_selects_first_witness :
  ∃ i,
    Script.currentAlgorithm
      (Script.changeAlgorithm ["A*"; "Dijkstra"; "A*"] "A*" locked_page)
    = Script.algorithm_index i ∧
    ["A*"; "Dijkstra"; "A*"] !! i = Some "A*"%string.
Proof.
  destruct (proj1 (proj2 (changeAlgorithm_selects_first
                            ["A*"; "Dijkstra"; "A*"] "A*" locked_page)))
    as (i & H1 & H2 & _).
  - apply list_elem_of_here.
  - exists i. exact (conj H1 H2).
Defined.

(** ** [recalcScale] *)

(** X21. For a world with positive sides and a window of non-negative
    size, [recalcScale] picks the largest whole scale at which the world
    fits the window in both directions, and a position that centres it:
    the world lies inside the window and the margins on opposite sides
    differ by at most one pixel. *)
Theorem recalcScale_fits_and_centres innerWidth innerHeight w :
  0 < Vec2.x (WorldMap.size w) → 0 < Vec2.y (WorldMap.size w) →
  0 ≤ innerWidth → 0 ≤ innerHeight →
  let v := Script.recalcScale innerWidth innerHeight w in
  let width := Vec2.x (WorldMap.size w) * Script.SCALE v in
  let height := Vec2.y (WorldMap.size w) * Script.SCALE v in
  0 ≤ Script.SCALE v ∧
  width ≤ innerWidth ∧ height ≤ innerHeight ∧
  (innerWidth < width + Vec2.x (WorldMap.size w)
   ∨ innerHeight < height + Vec2.y (WorldMap.size w)) ∧
  0 ≤ Vec2.x (Script.pos v) ∧
  0 ≤ innerWidth - (Vec2.x (Script.pos v) + width) - Vec2.x (Script.pos v) ≤ 1 ∧
  0 ≤ Vec2.y (Script.pos v) ∧
  0 ≤ innerHeight - (Vec2.y (Script.pos v) + height) - Vec2.y (Script.pos v) ≤ 1.
Proof.
  intros Hx Hy Hw Hh. unfold Script.recalcScale. simpl.
  set (sx := Vec2.x (WorldMap.size w)) in *.
  set (sy := Vec2.y (WorldMap.size w)) in *.
  pose proof (Z.div_mod innerWidth sx ltac:(lia)) as Hdw.
  pose proof (Z.mod_pos_bound innerWidth sx ltac:(lia)) as Hmw.
  pose proof (Z.div_mod innerHeight sy ltac:(lia)) as Hdh.
  pose proof (Z.mod_pos_bound innerHeight sy ltac:(lia)) as Hmh.
  pose proof (Z.div_pos innerWidth sx ltac:(lia) ltac:(lia)) as Hqw.
  pose proof (Z.div_pos innerHeight sy ltac:(lia) ltac:(lia)) as Hqh.
  set (qw := innerWidth / sx) in *. set (qh := innerHeight / sy) in *.
  set (scale := Z.min qh qw).
  assert (Hs : 0 ≤ scale ∧ scale ≤ qw ∧ scale ≤ qh ∧ (scale = qw ∨ scale = qh))
    by (subst scale; lia).
  destruct Hs as (Hs0 & Hsw & Hsh & Hcase).
  assert (Hfw : sx * scale ≤ innerWidth) by nia.
  assert (Hfh : sy * scale ≤ innerHeight) by nia.
  pose proof (Z.div_mod (innerWidth - sx * scale) 2 ltac:(lia)) as Hpx.
  pose proof (Z.mod_pos_bound (innerWidth - sx * scale) 2 ltac:(lia)) as Hpxm.
  pose proof (Z.div_mod (innerHeight - sy * scale) 2 ltac:(lia)) as Hpy.
  pose proof (Z.mod_pos_bound (innerHeight - sy * scale) 2 ltac:(lia)) as Hpym.
  split_and!; lia.
Qed.

Lemma recalcScale_fits_and_centres_witness :
  let v := Script.recalcScale 1921 1080 (Script.WORLD_MAP Script.initial) in
  0 ≤ Script.SCALE v ∧
  30 * Script.SCALE v ≤ 1921 ∧ 15 * Script.SCALE v ≤ 1080.
Proof.
  destruct (recalcScale_fits_and_centres 1921 1080
              (Script.WORLD_MAP Script.initial)
              ltac:(simpl; lia) ltac:(simpl; lia) ltac:(lia) ltac:(lia))
    as (H1 & H2 & H3 & _).
  exact (conj H1 (conj H2 H3)).
Defined.

(** ** How writes compose *)

(** X22. [putCell] returns the cell its coordinate reads afterwards,
    whether the write was accepted or rejected. *)
Theorem putCell_returns_what_is_read cell x y w :
  (WorldMap.putCell cell x y w).1
  = WorldMap.getCell (WorldMap.putCell cell x y w).2 x y.
Proof.
  rewrite getCell_putCell. unfold WorldMap.putCell.
  destruct (truthy _ _); [done|]. by rewrite !Z.eqb_refl.
Qed.

(** X23. Two writes to the same coordinate, starting from a cell that is
    not permanent: the first one stays if it wrote a permanent cell,
    otherwise the second one replaces it. *)
Theorem putCell_twice cell1 cell2 x y w :
  ¬ Permanent (WorldMap.getCell w x y) →
  WorldMap.getCell
    (WorldMap.putCell cell2 x y (WorldMap.putCell cell1 x y w).2).2 x y
  = if decide (Permanent cell1) then cell1 else cell2.
Proof.
  intros Hnp. rewrite !getCell_putCell, !Z.eqb_refl. simpl.
  destruct (truthy PERMANENT_CELL_TYPES (WorldMap.getCell w x y)) eqn:E;
    [by apply truthy_PERMANENT in E|].
  destruct (truthy PERMANENT_CELL_TYPES cell1) eqn:E1.
  - apply truthy_PERMANENT in E1. by rewrite decide_True.
  - rewrite decide_False; [done|]. intros H%truthy_PERMANENT. congruence.
Qed.

Lemma putCell_twice_witness :
  WorldMap.getCell
    (WorldMap.putCell PATH 0 0 (WorldMap.putCell GOAL 0 0 example_world).2).2
    0 0 = GOAL ∧
  WorldMap.getCell
    (WorldMap.putCell PATH 2 3
       (WorldMap.putCell CALCULATED 2 3 example_world).2).2
    2 3 = PATH.
Proof.
  split.
  - refine (putCell_twice GOAL PATH 0 0 example_world _).
    intros [H|[H|H]]; discriminate H.
  - refine (putCell_twice CALCULATED PATH 2 3 example_world _).
    intros [H|[H|H]]; discriminate H.
Defined.

(** X24. Writes to different coordinates do not interfere: done in
    either order they give maps that read the same everywhere. *)
Theorem putCell_commute cell1 x1 y1 cell2 x2 y2 w :
  (x1, y1) ≠ (x2, y2) →
  ∀ x y,
    WorldMap.getCell
      (WorldMap.putCell cell2 x2 y2 (WorldMap.putCell cell1 x1 y1 w).2).2 x y
    = WorldMap.getCell
        (WorldMap.putCell cell1 x1 y1 (WorldMap.putCell cell2 x2 y2 w).2).2 x y.
Proof.
  intros Hne x y.
  assert (H12 : WorldMap.getCell (WorldMap.putCell cell1 x1 y1 w).2 x2 y2
                = WorldMap.getCell w x2 y2).
  { rewrite getCell_putCell. destruct (truthy _ _); [done|].
    destruct (Z.eqb_spec x2 x1) as [->|]; simpl; [|done].
    destruct (Z.eqb_spec y2 y1) as [->|]; simpl; [|done]. by destruct Hne. }
  assert (H21 : WorldMap.getCell (WorldMap.putCell cell2 x2 y2 w).2 x1 y1
                = WorldMap.getCell w x1 y1).
  { rewrite getCell_putCell. destruct (truthy _ _); [done|].
    destruct (Z.eqb_spec x1 x2) as [->|]; simpl; [|done].
    destruct (Z.eqb_spec y1 y2) as [->|]; simpl; [|done]. by destruct Hne. }
  rewrite (getCell_putCell cell2 x2 y2), (getCell_putCell cell1 x1 y1 (_).2).
  rewrite H12, H21, !getCell_putCell.
  destruct (truthy PERMANENT_CELL_TYPES (WorldMap.getCell w x1 y1)),
    (truthy PERMANENT_CELL_TYPES (WorldMap.getCell w x2 y2)); try done.
  destruct (Z.eqb_spec x x2) as [->|]; simpl; [|done].
  destruct (Z.eqb_spec y y2) as [->|]; simpl; [|done].
  destruct (Z.eqb_spec x2 x1) as [->|]; simpl; [|done].
  destruct (Z.eqb_spec y2 y1) as [->|]; simpl; [|done]. by destruct Hne.
Qed.

Lemma putCell_commute_witness :
  WorldMap.getCell
    (WorldMap.putCell PATH 0 1 (WorldMap.putCell WALL 0 0 example_world).2).2
    0 1
  = WorldMap.getCell
      (WorldMap.putCell WALL 0 0 (WorldMap.putCell PATH 0 1 example_world).2).2
      0 1.
Proof.
  refine (putCell_commute WALL 0 0 PATH 0 1 example_world _ 0 1).
  discriminate.
Defined.


